(** * MiBiS&XOR entropy conditioning: a shallow embedding and its properties

    The development follows the Python sources
      - [src/mibis_xor.py]        (class [MiBiSXOR]),
      - [src/file_operations.py]  (class [FileOperations]),
      - [src/main.py]             (class [TrngGenerator]),
      - [src/bit_extraction.py]   (class [BitExtractor]).

    Conventions of the embedding.
      - A Python [int] that is a length or an index is a [nat]; one that
        can be negative (a command-line number) is a [Z].
      - A bit is the value of an [np.uint8] cell, kept as a [Z];
        [^] is [Z.lxor], [<<] is [Z.shiftl], [>>] is [Z.shiftr].
      - A Python exception is [None] in the [option] monad of stdpp
        ([x ← e; k]).  Reading or writing a list cell out of range
        raises [IndexError], so both are partial here.
      - [math.floor(math.log2(k) + 1)] on a positive integer [k] is
        [Nat.log2 k + 1].  [math.log2] is a double-precision logarithm:
        the two agree for every [k < 2 ^ 48].  Just below a larger power
        of two (first at [k = 2 ^ 49 - 1]) the rounded logarithm is the
        next integer and the source takes one step more than
        [Nat.log2 k + 1].  A statement about the number of steps for a
        bare number therefore carries the bound [2 ^ 48]; a statement
        about an array of that many cells needs none.
      - A name that a function reads but that neither the function nor
        the module binds raises [NameError]: [load_global]. *)

From Stdlib Require Import ZifyNat.
From stdpp Require Import base option numbers list sorting strings gmap.

Set Default Proof Using "Type".

(** ** Python list primitives *)

(** [xs[i]] for [0 <= i]: [IndexError] out of range. *)
Definition py_get {A} (xs : list A) (i : nat) : option A := xs !! i.

(** [xs[i] = v] for [0 <= i]: [IndexError] out of range. *)
Definition py_set {A} (xs : list A) (i : nat) (v : A) : option (list A) :=
  if decide (i < length xs) then Some (<[i:=v]> xs) else None.

(** [xs[-1] = v]: the last cell, [IndexError] on the empty list. *)
Definition py_set_last {A} (xs : list A) (v : A) : option (list A) :=
  if decide (0 < length xs) then Some (<[length xs - 1:=v]> xs) else None.

(** [xs[:k]] for any integer [k]; a negative [k] counts from the end. *)
Definition py_slice_to {A} (k : Z) (xs : list A) : list A :=
  if decide (0 ≤ k)%Z then take (Z.to_nat k) xs
  else take (length xs - Z.to_nat (- k)) xs.

(** [range(start, stop, step)] for [0 <= start] and [0 < step].  A [stop]
    below [start] (also a negative one, which the truncated subtraction
    of the caller turns into [0]) gives the empty range. *)
Definition py_range (start stop step : nat) : list nat :=
  (λ k, start + k * step) <$> seq 0 ((stop - start + step - 1) / step).

(** ** [MiBiSXOR] *)

Module MiBiSXOR.

(** [_calculate_mixing_steps]: [math.floor(math.log2(bit_length - 1) + 1)],
    exact for [bit_length <= 2 ^ 48]. *)
Definition _calculate_mixing_steps (num_bits : nat) : nat :=
  if decide (num_bits ≤ 1) then 1 else Nat.log2 (num_bits - 1) + 1.

(** [buffer_size = 2 ** (steps - 1) + 1] *)
Definition buffer_size (steps : nat) : nat := 2 ^ (steps - 1) + 1.

(** The variables of [_mix_bits] that live across rounds.  [assigned] is
    a ghost field: the slots [p] for which [mixed_buffer[p] = ...] has
    been executed so far, in execution order.  The source has no such
    variable; nothing is ever read from it. *)
Record MixState := mkMix {
  mixed_buffer : list Z;
  input_idx : nat;
  occupied_positions : list nat;
  assigned : list nat
}.

(** The inner [for i in range(len(occupied_positions) - 1)] loop over the
    adjacent pairs of [occupied_positions]; the accumulator is
    [(mixed_buffer, input_idx, new_positions)].  The [and] of the source
    is short-circuiting: the buffer is read only when input remains. *)
Fixpoint scan_pairs (input_bits : list Z) (occ : list nat)
    (acc : list Z * nat * list nat) : option (list Z * nat * list nat) :=
  match occ with
  | left_pos :: (right_pos :: _) as rest =>
      let '(buf, idx, new_positions) := acc in
      let middle_pos := (left_pos + right_pos) / 2 in
      if decide (idx < length input_bits) then
        cur ← py_get buf middle_pos;
        if decide (cur = 0%Z) then
          b ← py_get input_bits idx;
          buf' ← py_set buf middle_pos b;
          scan_pairs input_bits rest (buf', idx + 1, new_positions ++ [middle_pos])
        else scan_pairs input_bits rest acc
      else scan_pairs input_bits rest acc
  | _ => Some acc
  end.

(** One pass of the body of [for step in range(2, steps + 1)], up to and
    including [occupied_positions.sort()]. *)
Definition mix_round (input_bits : list Z) (st : MixState) : option MixState :=
  '(buf, idx, new_positions) ←
     scan_pairs input_bits (occupied_positions st)
                (mixed_buffer st, input_idx st, []);
  Some (mkMix buf idx
          (merge_sort (≤) (occupied_positions st ++ new_positions))
          (assigned st ++ new_positions)).

(** [n] passes of the round loop, with its [break]. *)
Fixpoint mix_rounds (n : nat) (input_bits : list Z) (st : MixState)
    : option MixState :=
  match n with
  | 0 => Some st
  | S n' =>
      st' ← mix_round input_bits st;
      if decide (length input_bits ≤ input_idx st') then Some st'
      else mix_rounds n' input_bits st'
  end.

(** The state on entry to the round loop (source lines 99-110). *)
Definition mix_init (input_bits : list Z) (steps : nat) : option MixState :=
  let buf0 := replicate (buffer_size steps) 0%Z in
  buf1 ← (if decide (0 < length input_bits)
          then b ← py_get input_bits 0; py_set buf0 0 b
          else Some buf0);
  buf2 ← (if decide (1 < length input_bits)
          then b ← py_get input_bits 1; py_set_last buf1 b
          else Some buf1);
  Some (mkMix buf2 2 [0; buffer_size steps - 1]
          ((if decide (0 < length input_bits) then [0] else []) ++
           (if decide (1 < length input_bits) then [buffer_size steps - 1] else []))).

(** The state after at most [k] rounds of [_mix_bits input_bits steps]
    with [1 < steps]; [k = steps - 1] is the whole loop. *)
Definition mix_state_after (k : nat) (input_bits : list Z) (steps : nat)
    : option MixState :=
  st0 ← mix_init input_bits steps;
  mix_rounds k input_bits st0.

(** [_mix_bits].  With [steps = 0] the source computes [2 ** -1 = 0.5]
    and [[0] * 1.5] raises [TypeError]. *)
Definition _mix_bits (input_bits : list Z) (steps : nat) : option (list Z) :=
  if decide (steps = 0) then None
  else if decide (steps = 1) then
    let buf0 := replicate (buffer_size steps) 0%Z in
    buf1 ← (if decide (0 < length input_bits)
            then b ← py_get input_bits 0; py_set buf0 0 b
            else Some buf0);
    buf2 ← (if decide (1 < length input_bits)
            then b ← py_get input_bits 1; py_set buf1 1 b
            else Some buf1);
    Some buf2
  else
    st ← mix_state_after (steps - 1) input_bits steps;
    Some (mixed_buffer st).

(** [_xor_adjacent_bits] *)
Definition _xor_adjacent_bits (mixed_bits : list Z) : option (list Z) :=
  mapM (λ i, a ← py_get mixed_bits i;
             b ← py_get mixed_bits (i + 1);
             Some (Z.lxor a b))
       (py_range 0 (length mixed_bits - 1) 2).

(** [_process_with_single_mixer] *)
Definition _process_with_single_mixer (input_bits : list Z) : option (list Z) :=
  let num_bits := length input_bits in
  let steps := _calculate_mixing_steps num_bits in
  mixed_bits ← _mix_bits input_bits steps;
  _xor_adjacent_bits mixed_bits.

(** [_process_with_dual_mixers] *)
Definition _process_with_dual_mixers (input_bits : list Z) : option (list Z) :=
  let midpoint := length input_bits / 2 in
  let bits1 := take midpoint input_bits in
  let bits2 := drop midpoint input_bits in
  let steps1 := _calculate_mixing_steps (length bits1) in
  let steps2 := _calculate_mixing_steps (length bits2) in
  mixed1 ← _mix_bits bits1 steps1;
  mixed2 ← _mix_bits bits2 steps2;
  output1 ← _xor_adjacent_bits mixed1;
  output2 ← _xor_adjacent_bits mixed2;
  Some (output1 ++ output2).

(** The first statement of [process_bits]: the bits that are fed to the
    mixers ([max_bits = None] is the default argument). *)
Definition cap_input (input_bits : list Z) (max_bits : option Z) : list Z :=
  match max_bits with
  | Some mb =>
      if decide (mb < Z.of_nat (length input_bits))%Z
      then py_slice_to mb input_bits else input_bits
  | None => input_bits
  end.

(** [process_bits] *)
Definition process_bits (use_dual_mixers : bool) (input_bits : list Z)
    (max_bits : option Z) : option (list Z) :=
  let input_bits := cap_input input_bits max_bits in
  if use_dual_mixers then _process_with_dual_mixers input_bits
  else _process_with_single_mixer input_bits.

End MiBiSXOR.

(** ** [FileOperations] *)

(** The bits of one byte, most significant first:
    [for i in range(7, -1, -1): bits.append((byte >> i) & 1)]. *)
Definition byte_bits (byte : Z) : list Z :=
  (λ i, Z.land (Z.shiftr byte (Z.of_nat i)) 1) <$> reverse (seq 0 8).

Module FileOperations.

(** The inner [for j in range(8)] loop of [save_bits_to_file]:
    [byte_val |= (bits[i * 8 + j] << (7 - j))]. *)
Fixpoint pack_loop (bits : list Z) (i : nat) (js : list nat) (byte_val : Z)
    : option Z :=
  match js with
  | [] => Some byte_val
  | j :: js' =>
      b ← py_get bits (i * 8 + j);
      pack_loop bits i js' (Z.lor byte_val (Z.shiftl b (Z.of_nat (7 - j))))
  end.

(** [bytes_data.append(byte_val)] raises [ValueError] unless
    [0 <= byte_val < 256]. *)
Definition bytearray_item (byte_val : Z) : option Z :=
  if decide (0 ≤ byte_val < 256)%Z then Some byte_val else None.

(** The padding and the conversion of [save_bits_to_file]: the bytes
    written and the value returned.  Cells are [np.uint8]; the shifts are
    those of unbounded integers, which is what numpy computes for cells
    that hold [0] or [1]. *)
Definition pack (bits : list Z) : option (list Z * nat) :=
  let padding_bits := (8 - length bits `mod` 8) `mod` 8 in
  let bits :=
    if decide (0 < padding_bits) then bits ++ replicate padding_bits 0%Z
    else bits in
  let byte_count := length bits / 8 in
  bytes_data ←
    mapM (λ i, byte_val ← pack_loop bits i (seq 0 8) 0%Z;
               bytearray_item byte_val)
         (seq 0 byte_count);
  Some (bytes_data, length bits).

(** [save_bits_to_file]; the file system is a finite map from file
    names to contents, and the result is the new file system and the
    returned count. *)
Definition save_bits_to_file (bits : list Z) (filename : string)
    (fs : gmap string (list Z)) : option (gmap string (list Z) * nat) :=
  '(bytes_data, n) ← pack bits;
  Some (<[filename := bytes_data]> fs, n).

(** The conversion and the limit of [load_bits_from_file]. *)
Definition unpack (data : list Z) (max_bits : option Z) : list Z :=
  let bits := data ≫= byte_bits in
  match max_bits with
  | Some mb =>
      if decide (mb < Z.of_nat (length bits))%Z
      then py_slice_to mb bits else bits
  | None => bits
  end.

(** [load_bits_from_file]: the empty array when the file is missing. *)
Definition load_bits_from_file (filename : string) (max_bits : option Z)
    (fs : gmap string (list Z)) : list Z :=
  match fs !! filename with
  | None => []
  | Some data => unpack data max_bits
  end.

End FileOperations.

(** ** [TrngGenerator] *)

Module TrngGenerator.

(** [i.to_bytes(4, byteorder='big')] for [0 <= i]: [OverflowError] when
    [i] does not fit in four bytes. *)
Definition to_bytes4 (i : Z) : option (list Z) :=
  if decide (i < 2 ^ 32)%Z
  then Some [ (i `div` 2 ^ 24) `mod` 256; (i `div` 2 ^ 16) `mod` 256;
              (i `div` 2 ^ 8) `mod` 256; i `mod` 256 ]%Z
  else None.

(** The names that [main.py] binds at module level: its imports (source
    lines 1-9), [logger] (line 19), the class and the two functions.
    [import hashlib] stands inside [generate] (line 87), where it binds a
    local variable of that function and nothing else. *)
Definition module_globals : list string :=
  [ "argparse"; "logging"; "np"; "time"; "os"; "AudioCapture";
    "BitExtractor"; "MiBiSXOR"; "FileOperations"; "logger";
    "TrngGenerator"; "parse_arguments"; "main" ].

(** Reading [name] in a function that does not bind it, where [value] is
    what the name would denote: [NameError] unless the module binds it. *)
Definition load_global {A} (name : string) (value : A) : option A :=
  if decide (name ∈ module_globals) then Some value else None.

Section Whitening.

(** [hashlib.sha3_256(...).digest()], a function of the library. *)
Variable sha3_256 : list Z → list Z.

(** [sha3_hash = hashlib.sha3_256(salted).digest()] and the bits of the
    digest, appended to [all_sha3_bits] (source lines 117-121 and
    132-136).  [_generate_and_save_sha3] reads [hashlib] as a global
    name. *)
Definition digest_bits (salted : list Z) : option (list Z) :=
  hash ← load_global "hashlib" sha3_256;
  Some (hash salted ≫= byte_bits).

(** The hashing of [_generate_and_save_sha3] (source lines 106-139) on
    the contents [data] of the input file.  [//] by zero raises
    [ZeroDivisionError]. *)
Definition whiten (data : list Z) (target_bits : Z) : option (list Z) :=
  let num_hashes_needed := ((target_bits + 255) `div` 256)%Z in
  let len_data := Z.of_nat (length data) in
  let d := (num_hashes_needed `min` 1000)%Z in
  chunk_size ← (if decide (d = 0%Z) then None else Some (len_data `div` d)%Z);
  let chunk_size := (chunk_size `max` 64)%Z in
  let available := (len_data `div` chunk_size)%Z in
  let n1 := (num_hashes_needed `min` available)%Z in
  hashes1 ←
    mapM (λ i : nat,
            let chunk := take (Z.to_nat chunk_size)
                           (drop (i * Z.to_nat chunk_size) data) in
            salt ← to_bytes4 (Z.of_nat i);
            digest_bits (chunk ++ salt))
         (seq 0 (Z.to_nat n1));
  let remaining_hashes := (num_hashes_needed - n1)%Z in
  hashes2 ←
    (if decide (0 < remaining_hashes)%Z then
       mapM (λ i : nat,
               let offset := (available + Z.of_nat i)%Z in
               salt ← to_bytes4 offset;
               digest_bits (data ++ salt))
            (seq 0 (Z.to_nat remaining_hashes))
     else Some []);
  let all_sha3_bits := mjoin hashes1 ++ mjoin hashes2 in
  Some (py_slice_to target_bits all_sha3_bits).

(** [_generate_and_save_sha3]: [open] raises when the input file is
    missing.  Whatever raises does so before the output file is opened,
    and leaves the file system as it was. *)
Definition _generate_and_save_sha3 (input_file output_file : string)
    (target_bits : Z) (fs : gmap string (list Z))
    : option (gmap string (list Z) * list Z) :=
  data ← fs !! input_file;
  sha3_bits_array ← whiten data target_bits;
  '(fs', _) ← FileOperations.save_bits_to_file sha3_bits_array output_file fs;
  Some (fs', sha3_bits_array).

End Whitening.

(** The result of running the [while] loop of [generate] with a bound
    on the number of iterations. *)
Inductive Outcome (A : Type) : Type :=
  | Finished (a : A)   (* the loop condition became false *)
  | Raised             (* an exception escaped the body *)
  | Running.           (* the bound was reached with the condition still true *)
Arguments Finished {A} a.
Arguments Raised {A}.
Arguments Running {A}.

(** The variables of [generate] that the loop updates. *)
Record GenState := mkGen {
  total_bits_generated : Z;
  all_raw_bits : list Z;
  all_processed_bits : list Z
}.

Section Generate.

(** The collaborators [capture_audio] and [extract_bits]: [source i n]
    is the array [new_raw_bits] obtained in iteration [i] of the loop
    when [bits_needed = n]. *)
Variable source : nat → Z → list Z.

Variables (target_bits batch_size : Z) (use_dual_mixers : bool).

(** What one iteration computes from [total_bits_generated]:
    [bits_needed], [new_raw_bits] and the truncated
    [new_processed_bits]. *)
Definition bits_needed_of (st : GenState) : Z :=
  (batch_size `min` (target_bits - total_bits_generated st))%Z.

(** The body of the [while] loop (source lines 61-73). *)
Definition generate_body (i : nat) (st : GenState) : option GenState :=
  let bits_needed := bits_needed_of st in
  let new_raw_bits := source i bits_needed in
  let all_raw_bits := all_raw_bits st ++ new_raw_bits in
  new_processed_bits ←
    MiBiSXOR.process_bits use_dual_mixers new_raw_bits (Some (bits_needed * 2)%Z);
  let new_processed_bits := py_slice_to bits_needed new_processed_bits in
  let all_processed_bits := all_processed_bits st ++ new_processed_bits in
  Some (mkGen
          (total_bits_generated st + Z.of_nat (length new_processed_bits))%Z
          all_raw_bits all_processed_bits).

(** [while self.total_bits_generated < self.target_bits: ...], at most
    [fuel] iterations, starting with iteration number [i]. *)
Fixpoint generate_loop (fuel : nat) (i : nat) (st : GenState)
    : Outcome GenState :=
  if decide (total_bits_generated st < target_bits)%Z then
    match fuel with
    | 0 => Running
    | S fuel' =>
        match generate_body i st with
        | None => Raised
        | Some st' => generate_loop fuel' (S i) st'
        end
    end
  else Finished st.

(** The state on entry to the loop. *)
Definition generate_init : GenState := mkGen 0 [] [].

End Generate.

End TrngGenerator.

Import MiBiSXOR.

(** ** [BitExtractor] *)

Module BitExtractor.

(** A sample is an [np.int16] cell, kept as a [Z]; [&] is [Z.land], which
    on negative numbers is the bitwise and of two's complement.

    [_extract_lsb] *)
Definition _extract_lsb (audio_samples : list Z) : list Z :=
  (λ s, Z.land s 1) <$> audio_samples.

(** [_extract_threshold] *)
Definition _extract_threshold (audio_samples : list Z) : list Z :=
  (λ s, if decide (0 < s)%Z then 1%Z else 0%Z) <$> audio_samples.

(** [bit_pos] for the index [i] of the loop of [extract_optimized_bits]. *)
Definition bit_pos (i : nat) : nat := if decide (i < 2) then i else i + 2.

(** [bit_values = ((audio_samples & bit_mask) > 0).astype(np.uint8)] with
    [bit_mask = 1 << bit_pos]. *)
Definition bit_values (audio_samples : list Z) (i : nat) : list Z :=
  let bit_mask := Z.shiftl 1 (Z.of_nat (bit_pos i)) in
  (λ s, if decide (0 < Z.land s bit_mask)%Z then 1%Z else 0%Z)
  <$> audio_samples.

(** [result[start::step] = values] for [0 <= start] and [0 < step].  The
    values must be as many as the slots of the slice, or a single one,
    which is then written to every slot; otherwise numpy raises
    [ValueError]. *)
Definition set_strided (result : list Z) (start step : nat) (values : list Z)
    : option (list Z) :=
  let slots := py_range start (length result) step in
  if decide (length values = length slots) then
    Some (foldl (λ r pv, <[pv.1 := pv.2]> r) result (zip slots values))
  else
    match values with
    | [v] => Some (foldl (λ r p, <[p := v]> r) result slots)
    | _ => None
    end.

(** The [for i in range(bits_per_sample)] loop of
    [extract_optimized_bits]. *)
Fixpoint optimized_loop (audio_samples : list Z) (bits_per_sample : nat)
    (indices : list nat) (result : list Z) : option (list Z) :=
  match indices with
  | [] => Some result
  | i :: indices' =>
      result' ← set_strided result i bits_per_sample (bit_values audio_samples i);
      optimized_loop audio_samples bits_per_sample indices' result'
  end.

(** [extract_optimized_bits] *)
Definition extract_optimized_bits (audio_samples : list Z) (bits_per_sample : Z)
    : option (list Z) :=
  let bits_per_sample := Z.to_nat (1 `max` (4 `min` bits_per_sample))%Z in
  let result := replicate (length audio_samples * bits_per_sample) 0%Z in
  if decide (bits_per_sample = 1) then
    Some ((λ s, Z.land s 1) <$> audio_samples)
  else
    optimized_loop audio_samples bits_per_sample (seq 0 bits_per_sample) result.

(** [extract_bits], for an extractor built with [method] and
    [bits_per_sample]; an unknown method raises [ValueError]. *)
Definition extract_bits (method : string) (bits_per_sample : Z)
    (audio_samples : list Z) : option (list Z) :=
  if decide (method = "lsb") then Some (_extract_lsb audio_samples)
  else if decide (method = "threshold") then
    Some (_extract_threshold audio_samples)
  else if decide (method = "optimized") then
    extract_optimized_bits audio_samples bits_per_sample
  else None.

End BitExtractor.

(** ** [TrngGenerator]: the files and the whole of [generate] *)

Module TrngGeneratorRun.

Import TrngGenerator.

(** [output_file_base.endswith('.bin')] *)
Definition ends_with_bin (output_file_base : string) : bool :=
  bool_decide (4 ≤ String.length output_file_base ∧
               String.substring (String.length output_file_base - 4) 4
                 output_file_base = ".bin").

(** The [output_file_base] kept by [__init__]: the argument without a
    final [.bin]. *)
Definition output_file_base (arg : string) : string :=
  if ends_with_bin arg then String.substring 0 (String.length arg - 4) arg
  else arg.

Definition raw_audio_file (arg : string) : string :=
  output_file_base arg +:+ "_raw.bin".
Definition mibis_xor_file (arg : string) : string :=
  output_file_base arg +:+ "_mibis.bin".
Definition sha3_file (arg : string) : string :=
  output_file_base arg +:+ "_sha3.bin".

Section Run.

Variable sha3_256 : list Z → list Z.
Variable source : nat → Z → list Z.
Variables (target_bits batch_size : Z) (use_dual_mixers : bool).
Variable arg : string.

(** What [generate] does once the loop has finished with the state
    [st] (source lines 79-98): it saves the raw and the mixed bits,
    whitens the file of mixed bits, and returns the three arrays.  The
    [import hashlib] of line 87 binds a local name of [generate], which
    [generate] itself never reads.  The result is the file system that
    the call leaves behind, also when it raises, and the outcome. *)
Definition generate_save (st : GenState) (fs : gmap string (list Z))
    : gmap string (list Z) * Outcome (list Z * list Z * list Z) :=
  match FileOperations.save_bits_to_file
          (all_raw_bits st) (raw_audio_file arg) fs with
  | None => (fs, Raised)
  | Some (fs, _) =>
      match FileOperations.save_bits_to_file
              (all_processed_bits st) (mibis_xor_file arg) fs with
      | None => (fs, Raised)
      | Some (fs, _) =>
          match _generate_and_save_sha3 sha3_256
                  (mibis_xor_file arg) (sha3_file arg) target_bits fs with
          | None => (fs, Raised)
          | Some (fs, sha3_bits) =>
              (fs, Finished (all_raw_bits st, all_processed_bits st, sha3_bits))
          end
      end
  end.

(** [generate], on a generator fresh from [__init__], with at most [fuel]
    iterations of its loop: the old output files are removed, the loop
    runs, the results are saved. *)
Definition generate (fuel : nat) (fs : gmap string (list Z))
    : gmap string (list Z) * Outcome (list Z * list Z * list Z) :=
  let fs :=
    delete (sha3_file arg)
      (delete (mibis_xor_file arg) (delete (raw_audio_file arg) fs)) in
  match generate_loop source target_bits batch_size use_dual_mixers
          fuel 0 generate_init with
  | Running => (fs, Running)
  | Raised => (fs, Raised)
  | Finished st => generate_save st fs
  end.

End Run.

End TrngGeneratorRun.

(** ** Vocabulary of the statements about [_mix_bits] *)

(** [a + g, a + 2 g, ..., a + c g] *)
Fixpoint steps_from (a g c : nat) : list nat :=
  match c with
  | 0 => []
  | S c' => (a + g) :: steps_from (a + g) g c'
  end.

(** The filled positions when every gap is [g]: [a, a + g, ..., a + c g]. *)
Definition grid (a g c : nat) : list nat := a :: steps_from a g c.

(** The midpoints of the [c] gaps of [grid a (2 * h) c]. *)
Fixpoint mids (a h c : nat) : list nat :=
  match c with
  | 0 => []
  | S c' => (a + h) :: mids (a + 2 * h) h c'
  end.

(** What holds of the variables of [_mix_bits] between rounds, for a
    buffer of [m] slots: the filled positions are strictly increasing
    indices of the buffer, among them the first and the last slot; no slot
    has been assigned twice; every assigned slot is recorded as filled;
    a slot that was never assigned still holds [0]. *)
Record filled_ok (m : nat) (st : MixState) : Prop := mkFilledOk {
  ok_len : length (mixed_buffer st) = m;
  ok_sorted : StronglySorted lt (occupied_positions st);
  ok_range : Forall (λ p, p ≤ m - 1) (occupied_positions st);
  ok_first : 0 ∈ occupied_positions st;
  ok_last : m - 1 ∈ occupied_positions st;
  ok_once : NoDup (assigned st);
  ok_assigned : assigned st ⊆ occupied_positions st;
  ok_zero : ∀ p, p < m → p ∉ assigned st → mixed_buffer st !! p = Some 0%Z
}.

(** The stronger fact on entry to a round that can still place bits:
    the filled positions are the multiples of the current gap [g]. *)
Record grid_inv (m g c : nat) (st : MixState) : Prop := mkGridInv {
  gi_occ : occupied_positions st = grid 0 g c;
  gi_size : c * g + 1 = m;
  gi_ok : filled_ok m st
}.

(** ** Vocabulary of the statements about bit streams *)

(** A cell that holds a bit. *)
Definition is_bit (b : Z) : Prop := b = 0%Z ∨ b = 1%Z.

(** [padding_bits] of [save_bits_to_file]. *)
Definition padding_of (n : nat) : nat := (8 - n `mod` 8) `mod` 8.

(** The value of eight bits read most significant first. *)
Definition msb_value (b0 b1 b2 b3 b4 b5 b6 b7 : Z) : Z :=
  (b0 * 128 + b1 * 64 + b2 * 32 + b3 * 16 + b4 * 8 + b5 * 4 + b6 * 2 + b7)%Z.

(** ** Vocabulary of the statements about the placement order *)

(** The slots assigned by [k] consecutive rounds that start on a grid of
    gap [2 ^ j] with [c] gaps, in the order of assignment: the midpoints
    of the current gaps from left to right, then those of the next
    round. *)
Fixpoint rounds_order (j c k : nat) : list nat :=
  match k with
  | 0 => []
  | S k' => mids 0 (2 ^ (j - 1)) c ++ rounds_order (j - 1) (2 * c) k'
  end.

(** The slot that receives the input bit number [i], for each [i] below
    the size of the buffer: first the two ends, then round by round. *)
Definition placement_order (steps : nat) : list nat :=
  [0; 2 ^ (steps - 1)] ++ rounds_order (steps - 1) 1 (steps - 1).

(** The number written by a list of bits, most significant first. *)
Definition bits_value (bits : list Z) : Z :=
  foldl (λ acc b, (2 * acc + b)%Z) 0%Z bits.

(** ** Vocabulary of the statements about the batch loop *)


(** * Properties *)


(** ** Python list primitives *)

Lemma py_set_Some {A} (xs : list A) i v :
  i < length xs → py_set xs i v = Some (<[i:=v]> xs).
Proof. intros. unfold py_set. by rewrite decide_True. Qed.

Lemma py_get_Some {A} (xs : list A) i :
  i < length xs → ∃ x, py_get xs i = Some x.
Proof. intros H. by apply lookup_lt_is_Some_2 in H as [x ?]; exists x. Qed.

Lemma py_range_even n :
  py_range 0 (n - 1) 2 = (λ k, 2 * k) <$> seq 0 (n / 2).
Proof.
  unfold py_range.
  replace ((n - 1 - 0 + 2 - 1) / 2) with (n / 2).
  - apply list_fmap_ext. intros; lia.
  - destruct n as [|n]; [done|].
    replace (S n - 1 - 0 + 2 - 1) with (S n) by lia. done.
Qed.

(** ** [_xor_adjacent_bits] never raises and halves the length *)

Lemma xor_adjacent_total (mixed_bits : list Z) :
  ∃ out, _xor_adjacent_bits mixed_bits = Some out ∧
         length out = length mixed_bits / 2.
Proof.
  unfold _xor_adjacent_bits. rewrite py_range_even.
  match goal with |- ∃ _, mapM ?f ?l = _ ∧ _ =>
    assert (is_Some (mapM f l)) as [out Hout] end.
  { apply mapM_is_Some. apply Forall_fmap, Forall_forall.
    intros k Hk%elem_of_seq. unfold compose.
    assert (2 * k + 1 < length mixed_bits).
    { pose proof (Nat.div_mod_eq (length mixed_bits) 2). lia. }
    destruct (py_get_Some mixed_bits (2 * k)) as [a Ha]; [lia|].
    destruct (py_get_Some mixed_bits (2 * k + 1)) as [b Hb]; [lia|].
    rewrite Ha. cbn [mbind option_bind]. rewrite Hb. done. }
  exists out. split; [done|].
  apply length_mapM in Hout. rewrite length_fmap, length_seq in Hout. done.
Qed.

(** ** The filled positions of [_mix_bits] *)

Lemma steps_from_bounds a g c p :
  p ∈ steps_from a g c → a + g ≤ p ≤ a + c * g.
Proof.
  revert a. induction c as [|c IH]; intros a; simpl.
  - by intros ?%elem_of_nil.
  - intros [->|Hp%IH]%elem_of_cons; lia.
Qed.

Lemma grid_bounds a g c p : p ∈ grid a g c → a ≤ p ≤ a + c * g.
Proof.
  unfold grid. intros [->|Hp%steps_from_bounds]%elem_of_cons; lia.
Qed.

Lemma steps_from_last a g c : a + S c * g ∈ steps_from a g (S c).
Proof.
  revert a. induction c as [|c IH]; intros a.
  - simpl. replace (a + (g + 0)) with (a + g) by lia. by left.
  - cbn [steps_from]. right.
    replace (a + S (S c) * g) with (a + g + S c * g) by lia. apply IH.
Qed.

Lemma grid_last a g c : a + c * g ∈ grid a g c.
Proof.
  unfold grid. destruct c as [|c].
  - replace (a + 0 * g) with a by lia. by left.
  - right. apply steps_from_last.
Qed.

Lemma sorted_lt_NoDup (l : list nat) : StronglySorted lt l → NoDup l.
Proof.
  induction 1 as [|x l _ IH Hx]; constructor; [|done].
  intros Hin. rewrite Forall_forall in Hx. specialize (Hx _ Hin). lia.
Qed.

Lemma grid_sorted a g c : 0 < g → StronglySorted lt (grid a g c).
Proof.
  intros Hg. unfold grid. revert a.
  induction c as [|c IH]; intros a; simpl.
  - repeat constructor.
  - constructor; [apply IH|].
    apply Forall_forall. intros p [->|Hp%steps_from_bounds]%elem_of_cons; lia.
Qed.

Lemma mids_bounds a h c p :
  p ∈ mids a h c → a + h ≤ p ∧ p + h ≤ a + c * (2 * h).
Proof.
  revert a. induction c as [|c IH]; intros a; simpl.
  - by intros ?%elem_of_nil.
  - intros [->|Hp%IH]%elem_of_cons; lia.
Qed.

Lemma length_mids a h c : length (mids a h c) = c.
Proof. revert a. induction c; intros; simpl; auto. Qed.

Lemma grid_mids_perm a h c :
  grid a (2 * h) c ++ mids a h c ≡ₚ grid a h (2 * c).
Proof.
  unfold grid. revert a. induction c as [|c IH]; intros a.
  - done.
  - replace (2 * S c) with (S (S (2 * c))) by lia. cbn [steps_from mids].
    replace (a + h + h) with (a + 2 * h) by lia.
    cbn [app]. apply perm_skip.
    rewrite <-Permutation_middle, Permutation_swap.
    apply perm_skip, (IH (a + 2 * h)).
Qed.

Lemma grid_mids_NoDup a h c :
  0 < h → NoDup (grid a (2 * h) c ++ mids a h c).
Proof.
  intros Hh. rewrite grid_mids_perm.
  apply sorted_lt_NoDup, grid_sorted. done.
Qed.

Lemma midpoint_grid a h : (a + (a + 2 * h)) / 2 = a + h.
Proof.
  replace (a + (a + 2 * h)) with ((a + h) * 2) by lia.
  by apply Nat.div_mul.
Qed.

(** One iteration of the inner loop. *)
Lemma scan_pairs_cons bits l r rest buf idx newp :
  scan_pairs bits (l :: r :: rest) (buf, idx, newp) =
  if decide (idx < length bits) then
    cur ← buf !! ((l + r) / 2);
    if decide (cur = 0%Z) then
      b ← bits !! idx;
      buf' ← py_set buf ((l + r) / 2) b;
      scan_pairs bits (r :: rest) (buf', idx + 1, newp ++ [(l + r) / 2])
    else scan_pairs bits (r :: rest) (buf, idx, newp)
  else scan_pairs bits (r :: rest) (buf, idx, newp).
Proof. done. Qed.

(** Once the input is consumed the inner loop changes nothing. *)
Lemma scan_pairs_exhausted bits occ buf idx newp :
  length bits ≤ idx →
  scan_pairs bits occ (buf, idx, newp) = Some (buf, idx, newp).
Proof.
  intros Hidx. induction occ as [|l occ IH]; [done|].
  destruct occ as [|r rest]; [done|].
  rewrite scan_pairs_cons, decide_False by lia. apply IH.
Qed.

(** The inner loop on a grid of gap [2 * h] whose midpoints hold [0]:
    it assigns the first [n] midpoints, in order, where [n] is the number
    of gaps or the number of bits left, whichever is smaller. *)
Lemma scan_pairs_grid bits h c :
  0 < h → ∀ a buf idx newp,
  a + c * (2 * h) < length buf →
  (∀ p, p ∈ mids a h c → buf !! p = Some 0%Z) →
  ∃ buf',
    scan_pairs bits (grid a (2 * h) c) (buf, idx, newp)
    = Some (buf', idx + c `min` (length bits - idx),
            newp ++ take (c `min` (length bits - idx)) (mids a h c)) ∧
    length buf' = length buf ∧
    ∀ p, p ∉ take (c `min` (length bits - idx)) (mids a h c) →
         buf' !! p = buf !! p.
Proof.
  intros Hh. induction c as [|c IH]; intros a buf idx newp Hlen Hzero.
  - exists buf. cbn. rewrite Nat.add_0_r, app_nil_r. done.
  - destruct (decide (idx < length bits)) as [Hidx|Hidx].
    + unfold grid. cbn [steps_from]. rewrite scan_pairs_cons.
      rewrite (midpoint_grid a h).
      rewrite decide_True by done.
      rewrite (Hzero (a + h)) by (simpl; left).
      cbn [mbind option_bind]. rewrite decide_True by done.
      destruct (lookup_lt_is_Some_2 bits idx Hidx) as [b ->].
      cbn [mbind option_bind]. rewrite py_set_Some by lia.
      cbn [mbind option_bind].
      destruct (IH (a + 2 * h) (<[a + h:=b]> buf) (idx + 1) (newp ++ [a + h]))
        as (buf' & Hscan & Hlen' & Hsame).
      { rewrite length_insert. lia. }
      { intros p Hp. rewrite list_lookup_insert_ne.
        - apply Hzero. simpl. by right.
        - apply mids_bounds in Hp. lia. }
      exists buf'.
      replace (S c `min` (length bits - idx))
        with (S (c `min` (length bits - (idx + 1)))) by lia.
      cbn [mids take]. unfold grid in Hscan.
      rewrite Hscan. split; [|split].
      * f_equal. f_equal; [f_equal; lia|]. by rewrite <-app_assoc.
      * by rewrite Hlen', length_insert.
      * intros p Hp. rewrite not_elem_of_cons in Hp. destruct Hp as [Hne Hp].
        rewrite Hsame by done. by rewrite list_lookup_insert_ne.
    + exists buf. rewrite scan_pairs_exhausted by lia.
      replace (S c `min` (length bits - idx)) with 0 by lia.
      rewrite take_0, Nat.add_0_r, app_nil_r. done.
Qed.

Lemma sorted_le_NoDup_lt (l : list nat) :
  StronglySorted le l → NoDup l → StronglySorted lt l.
Proof.
  induction 1 as [|x l _ IH Hx]; intros Hnd; [constructor|].
  apply NoDup_cons in Hnd as [Hnotin Hnd].
  constructor; [by apply IH|].
  rewrite Forall_forall in Hx |- *. intros y Hy.
  specialize (Hx y Hy). assert (x ≠ y) by (intros ->; done). lia.
Qed.

Lemma sorted_lt_le (l : list nat) : StronglySorted lt l → StronglySorted le l.
Proof.
  induction 1 as [|x l _ IH Hx]; constructor; [done|].
  eapply Forall_impl; [done|]. intros; simpl in *; lia.
Qed.

(** [occupied_positions.sort()] on distinct positions. *)
Lemma sort_NoDup_sorted (l : list nat) :
  NoDup l → StronglySorted lt (merge_sort (≤) l).
Proof.
  intros Hnd. apply sorted_le_NoDup_lt.
  - apply (StronglySorted_merge_sort _).
  - by rewrite merge_sort_Permutation.
Qed.

(** [occupied_positions.sort()] after a round that filled every gap. *)
Lemma sort_grid_mids h c :
  0 < h → merge_sort (≤) (grid 0 (2 * h) c ++ mids 0 h c) = grid 0 h (2 * c).
Proof.
  intros Hh. apply (StronglySorted_unique le).
  - apply (StronglySorted_merge_sort _).
  - by apply sorted_lt_le, grid_sorted.
  - rewrite merge_sort_Permutation. apply grid_mids_perm.
Qed.

(** One round started on a grid of gap [2 * h]. *)
Lemma mix_round_grid bits m h c st :
  0 < h → grid_inv m (2 * h) c st →
  ∃ st', mix_round bits st = Some st' ∧ filled_ok m st' ∧
         (input_idx st' < length bits → grid_inv m h (2 * c) st').
Proof.
  intros Hh [Hocc Hsize Hok].
  destruct st as [buf idx occ asg].
  cbn [occupied_positions] in Hocc. subst occ.
  destruct Hok as [Hlen _ _ _ _ Honce Hasg Hzero].
  cbn [mixed_buffer occupied_positions assigned] in *.
  pose proof (grid_mids_NoDup 0 h c Hh) as Hnd.
  apply NoDup_app in Hnd as (Hnd_grid & Hdisj & Hnd_mids).
  destruct (scan_pairs_grid bits h c Hh 0 buf idx [])
    as (buf' & Hscan & Hlen' & Hsame).
  { lia. }
  { intros p Hp. apply Hzero.
    - apply mids_bounds in Hp. lia.
    - intros Hin. apply Hasg in Hin. by apply (Hdisj p). }
  set (n := c `min` (length bits - idx)) in *.
  set (newp := take n (mids 0 h c)) in *.
  assert (newp ⊆ mids 0 h c) as Hsub by apply subseteq_take.
  assert (NoDup (grid 0 (2 * h) c ++ newp)) as Hnd.
  { apply NoDup_app. split_and!; [done| |].
    - intros x Hx Hx'. apply (Hdisj x Hx). by apply Hsub.
    - apply (sublist_NoDup _ (mids 0 h c)); [done|apply sublist_take]. }
  unfold mix_round. cbn [mixed_buffer occupied_positions assigned input_idx].
  rewrite Hscan. cbn [mbind option_bind app].
  eexists. split; [done|].
  match goal with |- filled_ok _ ?s ∧ _ => assert (filled_ok m s) as Hfo end.
  { constructor; cbn [mixed_buffer occupied_positions assigned input_idx].
    - lia.
    - by apply sort_NoDup_sorted.
    - rewrite merge_sort_Permutation. apply Forall_forall.
      intros p [Hp%grid_bounds|Hp%Hsub%mids_bounds]%elem_of_app; lia.
    - rewrite merge_sort_Permutation. apply elem_of_app. left. by left.
    - rewrite merge_sort_Permutation. apply elem_of_app. left.
      replace (m - 1) with (0 + c * (2 * h)) by lia. apply grid_last.
    - apply NoDup_app. split_and!; [done| |].
      + intros x Hx%Hasg Hx'. apply (Hdisj x Hx). by apply Hsub.
      + by apply NoDup_app in Hnd as (_ & _ & ?).
    - intros p Hp. rewrite merge_sort_Permutation.
      apply elem_of_app in Hp as [Hp%Hasg|Hp]; apply elem_of_app; auto.
    - intros p Hp Hnotin. rewrite not_elem_of_app in Hnotin.
      destruct Hnotin as [Hn1 Hn2]. rewrite Hsame by done. by apply Hzero. }
  split; [done|].
  intros Hmore. cbn [input_idx] in Hmore.
  constructor; [|by rewrite <-Hsize; f_equal; lia|done].
  cbn [occupied_positions]. unfold newp, n.
  rewrite take_ge by (rewrite length_mids; lia).
  by apply sort_grid_mids.
Qed.

(** The round loop started on a grid of gap [2 ^ j] runs [k <= j] rounds
    without raising and ends in a state that satisfies [filled_ok]. *)
Lemma mix_rounds_grid bits m k :
  ∀ j c st, k ≤ j → grid_inv m (2 ^ j) c st →
  ∃ st', mix_rounds k bits st = Some st' ∧ filled_ok m st'.
Proof.
  induction k as [|k IH]; intros j c st Hk Hinv.
  - exists st. split; [done|]. apply Hinv.
  - destruct j as [|j]; [lia|].
    rewrite Nat.pow_succ_r' in Hinv.
    destruct (mix_round_grid bits m (2 ^ j) c st)
      as (st' & Hround & Hok & Hnext); [|done|].
    { apply Nat.neq_0_lt_0, Nat.pow_nonzero. lia. }
    cbn [mix_rounds]. rewrite Hround. cbn [mbind option_bind].
    destruct (decide (length bits ≤ input_idx st')) as [Hbreak|Hmore].
    + by exists st'.
    + apply (IH j (2 * c)); [lia|]. apply Hnext. lia.
Qed.

(** The state on entry to the round loop is a grid with a single gap. *)
Lemma mix_init_grid bits steps :
  ∃ st0, mix_init bits steps = Some st0 ∧
         grid_inv (buffer_size steps) (2 ^ (steps - 1)) 1 st0.
Proof.
  unfold mix_init, buffer_size.
  assert (0 < 2 ^ (steps - 1)) as Hpos.
  { apply Nat.neq_0_lt_0, Nat.pow_nonzero. lia. }
  set (M := 2 ^ (steps - 1)) in *.
  assert (∀ p, p < M + 1 → replicate (M + 1) 0%Z !! p = Some 0%Z) as Hrep.
  { intros. by apply lookup_replicate_2. }
  destruct bits as [|b0 [|b1 bits]]; cbn [length].
  - rewrite !decide_False by lia. cbn [mbind option_bind app].
    eexists. split; [done|].
    constructor; [unfold grid; simpl; do 2 f_equal; lia|lia|].
    constructor; cbn [mixed_buffer occupied_positions assigned].
    + by rewrite length_replicate.
    + repeat constructor. lia.
    + repeat constructor; lia.
    + by left.
    + right. by left.
    + constructor.
    + by intros ? ?%elem_of_nil.
    + intros p Hp _. by apply Hrep.
  - repeat (rewrite decide_True by lia). repeat (rewrite decide_False by lia).
    cbn [mbind option_bind app py_get lookup list_lookup].
    rewrite py_set_Some by (rewrite length_replicate; lia).
    cbn [mbind option_bind].
    eexists. split; [done|].
    constructor; [unfold grid; simpl; do 2 f_equal; lia|lia|].
    constructor; cbn [mixed_buffer occupied_positions assigned].
    + by rewrite length_insert, length_replicate.
    + repeat constructor. lia.
    + repeat constructor; lia.
    + by left.
    + right. by left.
    + apply NoDup_singleton.
    + intros p ->%list_elem_of_singleton. by left.
    + intros p Hp Hnotin. rewrite list_elem_of_singleton in Hnotin.
      rewrite list_lookup_insert_ne by done. by apply Hrep.
  - repeat (rewrite decide_True by lia).
    cbn [mbind option_bind app py_get lookup list_lookup].
    rewrite py_set_Some by (rewrite length_replicate; lia).
    cbn [mbind option_bind]. rewrite decide_True by lia.
    cbn [mbind option_bind lookup list_lookup]. unfold py_set_last.
    rewrite decide_True by (rewrite length_insert, length_replicate; lia).
    cbn [mbind option_bind]. rewrite length_insert, length_replicate.
    eexists. split; [done|].
    constructor; [unfold grid; simpl; do 2 f_equal; lia|lia|].
    constructor; cbn [mixed_buffer occupied_positions assigned].
    + by rewrite !length_insert, length_replicate.
    + repeat constructor. lia.
    + repeat constructor; lia.
    + by left.
    + right. by left.
    + apply NoDup_cons. split; [|apply NoDup_singleton].
      rewrite list_elem_of_singleton. lia.
    + done.
    + intros p Hp Hnotin. rewrite !not_elem_of_cons in Hnotin.
      destruct Hnotin as (? & ? & _).
      rewrite !list_lookup_insert_ne by done. by apply Hrep.
Qed.

(** Every prefix of the round loop of [_mix_bits] runs without raising
    and leaves the variables in a state that satisfies [filled_ok]. *)
Lemma mix_state_after_ok bits steps k :
  k ≤ steps - 1 →
  ∃ st, mix_state_after k bits steps = Some st ∧
        filled_ok (buffer_size steps) st.
Proof.
  intros Hk. unfold mix_state_after.
  destruct (mix_init_grid bits steps) as (st0 & -> & Hinv).
  cbn [mbind option_bind]. by eapply mix_rounds_grid.
Qed.

(** [_mix_bits] never raises for [steps >= 1] and returns a buffer of
    [buffer_size steps] slots. *)
Lemma mix_bits_total bits steps :
  0 < steps →
  ∃ buf, _mix_bits bits steps = Some buf ∧ length buf = buffer_size steps.
Proof.
  intros Hs. unfold _mix_bits. rewrite decide_False by lia.
  destruct (decide (steps = 1)) as [->|Hne].
  - change (buffer_size 1) with 2. cbn [replicate].
    destruct bits as [|b0 [|b1 bits]]; cbn; eauto.
  - destruct (mix_state_after_ok bits steps (steps - 1)) as (st & -> & Hok);
      [done|].
    cbn [mbind option_bind]. eexists. split; [done|]. apply Hok.
Qed.

(** ** The single and the dual mixer *)

Lemma mixing_steps_pos n : 0 < _calculate_mixing_steps n.
Proof. unfold _calculate_mixing_steps. case_decide; lia. Qed.

(** The single mixer never raises; its output has half as many bits as
    the buffer has slots. *)
Lemma single_mixer_total bits :
  ∃ out, _process_with_single_mixer bits = Some out ∧
         length out = buffer_size (_calculate_mixing_steps (length bits)) / 2.
Proof.
  unfold _process_with_single_mixer.
  destruct (mix_bits_total bits (_calculate_mixing_steps (length bits)))
    as (buf & -> & Hlen); [apply mixing_steps_pos|].
  cbn [mbind option_bind].
  destruct (xor_adjacent_total buf) as (out & -> & Hout).
  exists out. by rewrite Hout, Hlen.
Qed.

Lemma buffer_size_half steps : 0 < steps → 0 < buffer_size steps / 2.
Proof.
  intros Hs. unfold buffer_size.
  assert (0 < 2 ^ (steps - 1)).
  { apply Nat.neq_0_lt_0, Nat.pow_nonzero. lia. }
  apply Nat.div_str_pos. lia.
Qed.

(** The dual mixer is two single mixers, one after the other. *)
Lemma dual_mixer_split bits :
  ∃ out1 out2,
    _process_with_single_mixer (take (length bits / 2) bits) = Some out1 ∧
    _process_with_single_mixer (drop (length bits / 2) bits) = Some out2 ∧
    _process_with_dual_mixers bits = Some (out1 ++ out2).
Proof.
  unfold _process_with_dual_mixers, _process_with_single_mixer.
  set (bits1 := take _ bits). set (bits2 := drop _ bits).
  destruct (mix_bits_total bits1 (_calculate_mixing_steps (length bits1)))
    as (mixed1 & -> & _); [apply mixing_steps_pos|].
  destruct (mix_bits_total bits2 (_calculate_mixing_steps (length bits2)))
    as (mixed2 & -> & _); [apply mixing_steps_pos|].
  cbn [mbind option_bind].
  destruct (xor_adjacent_total mixed1) as (out1 & -> & _).
  destruct (xor_adjacent_total mixed2) as (out2 & -> & _).
  by exists out1, out2.
Qed.

(** C1.  On the eight raw bits [0,1,1,0,1,1,0,1] the single mixer uses
    3 steps and a buffer of 5 slots.  Bit 0 goes to slot 0 and bit 1 to
    slot 4 (state on entry to the rounds); round 2 assigns slot 2; round 3
    assigns slots 1 and 3; the buffer [0,0,1,1,1] is compressed, its last
    slot dropped, into the two bits [0,0]. *)
Theorem C1_end_to_end_eight_bits :
  let bits := [0; 1; 1; 0; 1; 1; 0; 1]%Z in
  _calculate_mixing_steps (length bits) = 3 ∧
  buffer_size 3 = 5 ∧
  mix_state_after 0 bits 3
    = Some (mkMix [0; 0; 0; 0; 1]%Z 2 [0; 4] [0; 4]) ∧
  mix_state_after 1 bits 3
    = Some (mkMix [0; 0; 1; 0; 1]%Z 3 [0; 2; 4] [0; 4; 2]) ∧
  mix_state_after 2 bits 3
    = Some (mkMix [0; 0; 1; 1; 1]%Z 5 [0; 1; 2; 3; 4] [0; 4; 2; 1; 3]) ∧
  _mix_bits bits 3 = Some [0; 0; 1; 1; 1]%Z ∧
  _xor_adjacent_bits [0; 0; 1; 1; 1]%Z = Some [0; 0]%Z ∧
  _process_with_single_mixer bits = Some [0; 0]%Z.
Proof. vm_compute. repeat split. Qed.

(** C4.  For every input the dual mixer returns the output of the single
    mixer on the first [len // 2] bits followed by the output of the
    single mixer on the remaining bits; each half computes its own number
    of steps from its own length, and neither raises. *)
Theorem C4_dual_is_concatenation_of_singles bits :
  ∃ out1 out2,
    _process_with_single_mixer (take (length bits / 2) bits) = Some out1 ∧
    _process_with_single_mixer (drop (length bits / 2) bits) = Some out2 ∧
    _process_with_dual_mixers bits = Some (out1 ++ out2).
Proof. apply dual_mixer_split. Qed.

(** C5.  For [steps > 1], after any number [k] of rounds of
    [_mix_bits bits steps] (the loop has [steps - 1] of them) the list of
    filled positions is strictly increasing, holds indices of the buffer
    only, and contains [0] and [m - 1]; no slot has been assigned twice,
    so no placed bit was overwritten; every assigned slot is in the list
    of filled positions, and the slots never assigned still hold [0]. *)
Theorem C5_filled_positions_invariant bits steps k :
  1 < steps → k ≤ steps - 1 →
  ∃ st, mix_state_after k bits steps = Some st ∧
    let m := buffer_size steps in
    StronglySorted lt (occupied_positions st) ∧
    Forall (λ p, p ≤ m - 1) (occupied_positions st) ∧
    0 ∈ occupied_positions st ∧
    m - 1 ∈ occupied_positions st ∧
    NoDup (assigned st) ∧
    assigned st ⊆ occupied_positions st ∧
    (∀ p, p < m → p ∉ assigned st → mixed_buffer st !! p = Some 0%Z).
Proof.
  intros _ Hk.
  destruct (mix_state_after_ok bits steps k Hk) as (st & Hst & Hok).
  exists st. split; [done|]. destruct Hok. by split_and!.
Qed.

Lemma C5_witness :
  1 < 3 ∧ 2 ≤ 3 - 1 ∧
  ∃ st, mix_state_after 2 [0; 1; 1; 0; 1; 1; 0; 1]%Z 3 = Some st ∧
    let m := buffer_size 3 in
    StronglySorted lt (occupied_positions st) ∧
    Forall (λ p, p ≤ m - 1) (occupied_positions st) ∧
    0 ∈ occupied_positions st ∧
    m - 1 ∈ occupied_positions st ∧
    NoDup (assigned st) ∧
    assigned st ⊆ occupied_positions st ∧
    (∀ p, p < m → p ∉ assigned st → mixed_buffer st !! p = Some 0%Z).
Proof.
  split; [lia|]. split; [lia|].
  apply (C5_filled_positions_invariant [0; 1; 1; 0; 1; 1; 0; 1]%Z 3 2); lia.
Defined.

(** ** Degenerate inputs *)

(** Runs the straight-line part of a monadic computation: decides the
    tests that [lia] settles and performs the assignments in range. *)
Ltac run_monad :=
  repeat first
    [ rewrite decide_True by (cbn [length]; lia)
    | rewrite decide_False by (cbn [length]; lia)
    | rewrite py_set_Some
        by (rewrite ?length_insert, ?length_replicate; cbn [length]; lia)
    | progress cbn [mbind option_bind py_get lookup list_lookup length
                    mixed_buffer input_idx occupied_positions assigned] ].

Lemma mix_bits_short bits steps :
  length bits ≤ 1 → 0 < steps →
  _mix_bits bits steps
  = Some (bits ++ replicate (buffer_size steps - length bits) 0%Z).
Proof.
  intros Hlen Hs. unfold _mix_bits. rewrite decide_False by lia.
  destruct (decide (steps = 1)) as [->|Hne].
  - destruct bits as [|b0 [|b1 bits]]; [done|done|simpl in Hlen; lia].
  - unfold mix_state_after, mix_init, buffer_size.
    assert (steps - 1 = S (steps - 2)) as -> by lia.
    set (M := 2 ^ S (steps - 2)).
    replace (M + 1) with (S M) by lia.
    destruct bits as [|b0 [|b1 bits]]; [| |simpl in Hlen; lia].
    + run_monad. cbn [mix_rounds]. unfold mix_round. run_monad.
      rewrite scan_pairs_exhausted by (simpl; lia). run_monad.
      cbn [app]. f_equal.
    + run_monad. cbn [mix_rounds]. unfold mix_round. run_monad.
      rewrite scan_pairs_exhausted by (simpl; lia). run_monad.
      cbn [app replicate list_insert insert]. replace (S M - 1) with M by lia. done.
Qed.

Lemma filter_nonzero_zeros n :
  filter (λ b : Z, b ≠ 0%Z) (replicate n 0%Z) = [].
Proof.
  induction n as [|n IH]; [done|].
  cbn [replicate]. rewrite filter_cons_False; [apply IH|].
  intros H. by apply H.
Qed.

(** C9.  Mixing an input of length 0 or 1 never raises, whatever the
    number of steps: the buffer is the input followed by zeros, so it has
    at most [len(bits)] nonzero cells, and XOR compression of that buffer
    does not raise either. *)
Theorem C9_degenerate_inputs_do_not_raise bits steps :
  length bits ≤ 1 → 0 < steps →
  ∃ buf out,
    _mix_bits bits steps = Some buf ∧
    buf = bits ++ replicate (buffer_size steps - length bits) 0%Z ∧
    length (filter (λ b, b ≠ 0%Z) buf) ≤ length bits ∧
    _xor_adjacent_bits buf = Some out.
Proof.
  intros Hlen Hs.
  destruct (xor_adjacent_total
              (bits ++ replicate (buffer_size steps - length bits) 0%Z))
    as (out & Hout & _).
  eexists _, out. split; [by apply mix_bits_short|].
  split; [done|]. split; [|done].
  rewrite filter_app, length_app.
  rewrite filter_nonzero_zeros.
  pose proof (length_filter (λ b : Z, b ≠ 0%Z) bits). simpl. lia.
Qed.

Lemma C9_witness :
  length [1%Z] ≤ 1 ∧ 0 < _calculate_mixing_steps 1 ∧
  ∃ buf out,
    _mix_bits [1%Z] (_calculate_mixing_steps 1) = Some buf ∧
    buf = [1%Z] ++ replicate
            (buffer_size (_calculate_mixing_steps 1) - length [1%Z]) 0%Z ∧
    length (filter (λ b, b ≠ 0%Z) buf) ≤ length [1%Z] ∧
    _xor_adjacent_bits buf = Some out.
Proof.
  split; [simpl; lia|]. split; [vm_compute; lia|].
  apply (C9_degenerate_inputs_do_not_raise [1%Z] (_calculate_mixing_steps 1)).
  - simpl; lia.
  - vm_compute; lia.
Defined.

(** ** The number of steps and the size of the buffer *)

Lemma buffer_size_mixing_steps n :
  1 < n → buffer_size (_calculate_mixing_steps n) = 2 ^ Nat.log2 (n - 1) + 1.
Proof.
  intros Hn. unfold buffer_size, _calculate_mixing_steps.
  rewrite decide_False by lia. do 2 f_equal. lia.
Qed.

(** C2, as the code has it.  For every [n] with [1 < n <= 2 ^ 48] the
    buffer chosen by [_calculate_mixing_steps n] has at most [n] slots
    and more than [n / 2] of them; it has exactly [n] slots when, and
    only when, [n - 1] is a power of two.  The upper bound is the range
    on which the double-precision logarithm of the source is exact: at
    [n = 2 ^ 49] the source takes 50 steps, for [2 ^ 49 + 1] slots. *)
Theorem C2_buffer_capacity_bounds n :
  1 < n → (Z.of_nat n ≤ 2 ^ 48)%Z →
  buffer_size (_calculate_mixing_steps n) ≤ n ∧
  n + 2 ≤ 2 * buffer_size (_calculate_mixing_steps n) ∧
  (buffer_size (_calculate_mixing_steps n) = n ↔ ∃ k, n = 2 ^ k + 1).
Proof.
  intros Hn _. rewrite buffer_size_mixing_steps by done.
  destruct (Nat.log2_spec (n - 1)) as [Hlo Hhi]; [lia|].
  rewrite Nat.pow_succ_r' in Hhi.
  split_and!; [lia|lia|]. split.
  - intros Heq. exists (Nat.log2 (n - 1)). lia.
  - intros [k ->]. replace (2 ^ k + 1 - 1) with (2 ^ k) by lia.
    rewrite Nat.log2_pow2 by lia. done.
Qed.

Lemma C2_witness :
  1 < 8 ∧ (Z.of_nat 8 ≤ 2 ^ 48)%Z ∧
  buffer_size (_calculate_mixing_steps 8) ≤ 8 ∧
  8 + 2 ≤ 2 * buffer_size (_calculate_mixing_steps 8) ∧
  (buffer_size (_calculate_mixing_steps 8) = 8 ↔ ∃ k, 8 = 2 ^ k + 1).
Proof.
  assert (1 < 8) as Hn by lia.
  assert (Z.of_nat 8 ≤ 2 ^ 48)%Z as Hbound by (vm_compute; congruence).
  split; [exact Hn|]. split; [exact Hbound|].
  exact (C2_buffer_capacity_bounds 8 Hn Hbound).
Defined.

(** C2 as stated fails: four input bits get two steps and a buffer of
    three slots. *)
Lemma C2_counterexample :
  1 < 4 ∧ ¬ (4 ≤ buffer_size (_calculate_mixing_steps 4)).
Proof. split; [lia|]. vm_compute. lia. Qed.

(** ** The length of the single mixer's output *)

Lemma pow2_plus1_half j : (2 ^ S j + 1) / 2 = 2 ^ j.
Proof.
  rewrite Nat.pow_succ_r'. rewrite (Nat.mul_comm 2).
  rewrite Nat.div_add_l by lia. rewrite Nat.div_small by lia. lia.
Qed.

(** C10, as the code has it.  The single mixer never raises and never
    returns the empty list, and the length of its output depends on the
    length of the input only: one bit for inputs of length 0, 1 or 2 (the
    bit [0] for the empty input, [b] itself for the input [[b]]), and
    [2 ^ (steps - 2)] bits for inputs of length [n >= 3], where
    [steps = _calculate_mixing_steps n]. *)
Theorem C10_single_mixer_output_length bits :
  ∃ out,
    _process_with_single_mixer bits = Some out ∧
    0 < length out ∧
    (length bits ≤ 2 → length out = 1) ∧
    (bits = [] → out = [0%Z]) ∧
    (∀ b, bits = [b] → out = [b]) ∧
    (3 ≤ length bits →
     Z.of_nat (length out)
     = (2 ^ (Z.of_nat (_calculate_mixing_steps (length bits)) - 2))%Z).
Proof.
  destruct (single_mixer_total bits) as (out & Hout & Hlen).
  exists out. split; [done|]. split_and!.
  - rewrite Hlen. apply buffer_size_half, mixing_steps_pos.
  - intros Hn. rewrite Hlen.
    destruct bits as [|b0 [|b1 [|b2 bits]]]; [done|done|done|].
    simpl in Hn; lia.
  - intros ->. vm_compute in Hout. congruence.
  - intros b ->. unfold _process_with_single_mixer in Hout.
    rewrite mix_bits_short in Hout by (vm_compute; lia).
    destruct b; vm_compute in Hout; congruence.
  - intros Hn. rewrite Hlen.
    rewrite buffer_size_mixing_steps by lia.
    unfold _calculate_mixing_steps. rewrite decide_False by lia.
    assert (0 < Nat.log2 (length bits - 1)) as Hpos.
    { apply Nat.log2_pos. lia. }
    destruct (Nat.log2 (length bits - 1)) as [|j]; [lia|].
    rewrite pow2_plus1_half, Nat2Z.inj_pow. f_equal. lia.
Qed.

(** C10 as stated fails at length two: the single step gives a buffer
    of two slots and one output bit, which is not [2 ^ (1 - 2)] (on the
    integers that power is [0]; on the rationals it is one half, and
    twice the output length is not [2 ^ (1 - 1)] either). *)
Lemma C10_counterexample :
  ∃ out,
    2 ≤ length [0; 0]%Z ∧
    _calculate_mixing_steps (length [0; 0]%Z) = 1 ∧
    _process_with_single_mixer [0; 0]%Z = Some out ∧
    Z.of_nat (length out)
      ≠ (2 ^ (Z.of_nat (_calculate_mixing_steps (length [0; 0]%Z)) - 2))%Z ∧
    (2 * Z.of_nat (length out))%Z
      ≠ (2 ^ (Z.of_nat (_calculate_mixing_steps (length [0; 0]%Z)) - 1))%Z.
Proof. exists [0%Z]. vm_compute. split_and!; (done || lia). Qed.

(** ** Packing bits into bytes and back *)

Lemma mapM_cons_eq {A B} (f : A → option B) x l :
  mapM f (x :: l) = y ← f x; k ← mapM f l; Some (y :: k).
Proof. done. Qed.

Lemma mapM_fmap_eq {A B C} (f : B → option C) (g : A → B) l :
  mapM f (g <$> l) = mapM (f ∘ g) l.
Proof.
  induction l as [|x l IH]; [done|].
  rewrite fmap_cons, !mapM_cons_eq, IH. done.
Qed.

(** One byte: eight bits are packed most significant first into a value
    below 256, from which [byte_bits] reads them back. *)
Lemma pack_byte_bits b0 b1 b2 b3 b4 b5 b6 b7 rest :
  is_bit b0 → is_bit b1 → is_bit b2 → is_bit b3 →
  is_bit b4 → is_bit b5 → is_bit b6 → is_bit b7 →
  ∃ v, FileOperations.pack_loop
         (b0 :: b1 :: b2 :: b3 :: b4 :: b5 :: b6 :: b7 :: rest) 0 (seq 0 8) 0%Z
       = Some v ∧
       v = msb_value b0 b1 b2 b3 b4 b5 b6 b7 ∧
       FileOperations.bytearray_item v = Some v ∧
       byte_bits v = [b0; b1; b2; b3; b4; b5; b6; b7].
Proof.
  intros [->| ->] [->| ->] [->| ->] [->| ->] [->| ->] [->| ->] [->| ->] [->| ->];
    eexists; (split; [reflexivity|]); vm_compute; split_and!; reflexivity.
Qed.

(** The byte at index [S i] of a list is the byte at index [i] of the
    list without its first eight cells. *)
Lemma pack_loop_shift c rest i js v :
  length c = 8 →
  FileOperations.pack_loop (c ++ rest) (S i) js v
  = FileOperations.pack_loop rest i js v.
Proof.
  intros Hc. revert v. induction js as [|j js IH]; intros v; [done|].
  cbn [FileOperations.pack_loop]. unfold py_get.
  rewrite lookup_app_r by lia.
  replace (S i * 8 + j - length c) with (i * 8 + j) by lia.
  destruct (rest !! (i * 8 + j)); [|done]. cbn [mbind option_bind]. apply IH.
Qed.

(** The conversion loop of [save_bits_to_file] on [8 * k] bits. *)
Lemma pack_bytes_spec k :
  ∀ bits, length bits = 8 * k → Forall is_bit bits →
  ∃ bytes_data,
    mapM (λ i, byte_val ← FileOperations.pack_loop bits i (seq 0 8) 0%Z;
               FileOperations.bytearray_item byte_val) (seq 0 k)
    = Some bytes_data ∧
    length bytes_data = k ∧
    bytes_data ≫= byte_bits = bits.
Proof.
  induction k as [|k IH]; intros bits Hlen Hbits.
  - destruct bits; [|done]. by exists [].
  - destruct bits as [|b0 [|b1 [|b2 [|b3 [|b4 [|b5 [|b6 [|b7 rest]]]]]]]];
      try (simpl in Hlen; lia).
    repeat match goal with
           | H : Forall _ (_ :: _) |- _ => apply Forall_cons in H as [? H]
           end.
    destruct (pack_byte_bits b0 b1 b2 b3 b4 b5 b6 b7 rest)
      as (v & Hv & _ & Hitem & Hback); try done.
    destruct (IH rest) as (bytes & Hbytes & Hk & Hrest);
      [simpl in Hlen; lia|done|].
    exists (v :: bytes).
    change (seq 0 (S k)) with (0 :: seq 1 k).
    rewrite <-(fmap_S_seq 0 k), mapM_cons_eq, mapM_fmap_eq.
    rewrite Hv. cbn [mbind option_bind]. rewrite Hitem. cbn [mbind option_bind].
    erewrite mapM_ext; [rewrite Hbytes|].
    + split_and!; [done|simpl; lia|].
      by rewrite bind_cons, Hback, Hrest.
    + intros i. unfold compose.
      by rewrite (pack_loop_shift [b0; b1; b2; b3; b4; b5; b6; b7] rest).
Qed.

Lemma padding_of_spec n : (n + padding_of n) `mod` 8 = 0 ∧ padding_of n < 8.
Proof. unfold padding_of. lia. Qed.

(** [pack] on bits: it never raises, returns the padded length, and the
    bytes read back most significant first are the bits followed by the
    padding zeros. *)
Lemma pack_spec bits :
  Forall is_bit bits →
  ∃ bytes_data,
    FileOperations.pack bits
    = Some (bytes_data, length bits + padding_of (length bits)) ∧
    8 * length bytes_data = length bits + padding_of (length bits) ∧
    bytes_data ≫= byte_bits = bits ++ replicate (padding_of (length bits)) 0%Z.
Proof.
  intros Hbits. unfold FileOperations.pack. fold (padding_of (length bits)).
  set (pad := padding_of (length bits)).
  destruct (padding_of_spec (length bits)) as [Hmod _]. fold pad in Hmod.
  assert ((if decide (0 < pad) then bits ++ replicate pad 0%Z else bits)
          = bits ++ replicate pad 0%Z) as ->.
  { case_decide; [done|]. replace pad with 0 by lia. by rewrite app_nil_r. }
  set (padded := bits ++ replicate pad 0%Z).
  assert (length padded = length bits + pad) as Hlen.
  { unfold padded. by rewrite length_app, length_replicate. }
  destruct (pack_bytes_spec (length padded / 8) padded)
    as (bytes & Hbytes & Hk & Hback).
  { rewrite Hlen. lia. }
  { unfold padded. apply Forall_app. split; [done|].
    apply Forall_replicate. by left. }
  exists bytes. rewrite Hbytes. cbn [mbind option_bind].
  split_and!; [by rewrite Hlen| |done].
  rewrite Hk, <-Hlen. lia.
Qed.

Example pack_three_bits :
  FileOperations.pack [1; 0; 1]%Z = Some ([160%Z], 8).
Proof. vm_compute. reflexivity. Qed.

(** C7, as the code has it.  On every list of bits
    [save_bits_to_file] does not raise; it writes the bits most
    significant first, padded with zeros on the right to a whole number of
    bytes, and returns the number of bits written with the padding, that
    is, eight times the number of bytes.  That count is the length of the
    input exactly when the length is a multiple of 8. *)
Theorem C7_save_returns_padded_count bits filename fs :
  Forall is_bit bits →
  ∃ bytes_data,
    FileOperations.save_bits_to_file bits filename fs
    = Some (<[filename := bytes_data]> fs, 8 * length bytes_data) ∧
    8 * length bytes_data = length bits + padding_of (length bits) ∧
    FileOperations.unpack bytes_data None
    = bits ++ replicate (padding_of (length bits)) 0%Z ∧
    (8 * length bytes_data = length bits ↔ length bits `mod` 8 = 0).
Proof.
  intros Hbits. destruct (pack_spec bits Hbits) as (bytes & Hpack & Hlen & Hback).
  exists bytes. unfold FileOperations.save_bits_to_file.
  rewrite Hpack. cbn [mbind option_bind]. rewrite Hlen.
  split_and!; [done|done|done|].
  unfold padding_of. lia.
Qed.

Lemma C7_witness :
  Forall is_bit [1; 0; 1]%Z ∧
  ∃ bytes_data,
    FileOperations.save_bits_to_file [1; 0; 1]%Z "bits.bin" ∅
    = Some (<["bits.bin" := bytes_data]> ∅, 8 * length bytes_data) ∧
    8 * length bytes_data
    = length [1; 0; 1]%Z + padding_of (length [1; 0; 1]%Z) ∧
    FileOperations.unpack bytes_data None
    = [1; 0; 1]%Z ++ replicate (padding_of (length [1; 0; 1]%Z)) 0%Z ∧
    (8 * length bytes_data = length [1; 0; 1]%Z
     ↔ length [1; 0; 1]%Z `mod` 8 = 0).
Proof.
  assert (Forall is_bit [1; 0; 1]%Z) as Hbits.
  { repeat constructor; (by left) || (by right). }
  split; [exact Hbits|].
  exact (C7_save_returns_padded_count [1; 0; 1]%Z "bits.bin" ∅ Hbits).
Defined.

(** C7 as stated fails: for three bits the value returned is 8, not 3. *)
Lemma C7_counterexample :
  Forall is_bit [1; 0; 1]%Z ∧
  ∃ fs' n,
    FileOperations.save_bits_to_file [1; 0; 1]%Z "bits.bin" ∅ = Some (fs', n) ∧
    n = 8 ∧ n ≠ length [1; 0; 1]%Z.
Proof.
  split; [repeat constructor; (by left) || (by right)|].
  unfold FileOperations.save_bits_to_file. rewrite pack_three_bits.
  cbn [mbind option_bind]. eexists _, _. split; [done|]. simpl. lia.
Qed.

(** C8.  When the number of bits is a multiple of 8, saving them to a
    file and loading that file with no limit gives the same bits back. *)
Theorem C8_save_load_round_trip bits filename fs :
  length bits `mod` 8 = 0 → Forall is_bit bits →
  ∃ fs' n,
    FileOperations.save_bits_to_file bits filename fs = Some (fs', n) ∧
    FileOperations.load_bits_from_file filename None fs' = bits.
Proof.
  intros Hmod Hbits.
  destruct (pack_spec bits Hbits) as (bytes & Hpack & Hlen & Hback).
  unfold FileOperations.save_bits_to_file.
  rewrite Hpack. cbn [mbind option_bind]. eexists _, _. split; [done|].
  unfold FileOperations.load_bits_from_file. rewrite lookup_insert_eq.
  unfold FileOperations.unpack. rewrite Hback.
  replace (padding_of (length bits)) with 0 by (unfold padding_of; lia).
  apply app_nil_r.
Qed.

Lemma C8_witness :
  length [1; 0; 1; 1; 0; 0; 1; 0]%Z `mod` 8 = 0 ∧
  Forall is_bit [1; 0; 1; 1; 0; 0; 1; 0]%Z ∧
  ∃ fs' n,
    FileOperations.save_bits_to_file
      [1; 0; 1; 1; 0; 0; 1; 0]%Z "bits.bin" ∅ = Some (fs', n) ∧
    FileOperations.load_bits_from_file "bits.bin" None fs'
    = [1; 0; 1; 1; 0; 0; 1; 0]%Z.
Proof.
  assert (Forall is_bit [1; 0; 1; 1; 0; 0; 1; 0]%Z) as Hbits.
  { repeat constructor; (by left) || (by right). }
  split; [reflexivity|]. split; [exact Hbits|].
  exact (C8_save_load_round_trip
           [1; 0; 1; 1; 0; 0; 1; 0]%Z "bits.bin" ∅ eq_refl Hbits).
Defined.

Lemma length_py_slice_to {A} (k : Z) (xs : list A) :
  (0 ≤ k)%Z → length (py_slice_to k xs) = Z.to_nat k `min` length xs.
Proof.
  intros. unfold py_slice_to. rewrite decide_True by done. apply length_take.
Qed.

(** ** Whitening *)

Import TrngGenerator.

Lemma is_bit_land_1 x : is_bit (Z.land x 1).
Proof.
  change 1%Z with (Z.ones 1). rewrite Z.land_ones by lia.
  unfold is_bit. change (2 ^ 1)%Z with 2%Z. lia.
Qed.

Lemma byte_bits_spec byte :
  length (byte_bits byte) = 8 ∧ Forall is_bit (byte_bits byte).
Proof.
  split; [done|]. unfold byte_bits. apply Forall_fmap, Forall_forall.
  intros i _. apply is_bit_land_1.
Qed.

Lemma bind_byte_bits_spec (bytes : list Z) :
  length (bytes ≫= byte_bits) = 8 * length bytes ∧
  Forall is_bit (bytes ≫= byte_bits).
Proof.
  induction bytes as [|x bytes [IHlen IHbits]]; [by split|].
  rewrite bind_cons, length_app, Forall_app.
  destruct (byte_bits_spec x) as [-> ?]. cbn [length]. split; [lia|done].
Qed.

(** The first hash of [_generate_and_save_sha3] has the counter [0],
    which fits the salt, and reads [hashlib], which [main.py] does not
    bind at module level. *)
Lemma salted_digest_raises sha3_256 (msg : list Z) :
  (salt ← to_bytes4 0; digest_bits sha3_256 (msg ++ salt)) = None.
Proof. reflexivity. Qed.

(** As soon as one hash is needed, [whiten] raises: the counter [0] of
    the first hash fits the salt, and the hash itself cannot be
    computed. *)
Lemma whiten_raises sha3_256 data target_bits :
  (1 ≤ target_bits)%Z → whiten sha3_256 data target_bits = None.
Proof.
  intros Ht. unfold whiten.
  set (num := ((target_bits + 255) `div` 256)%Z).
  assert (1 ≤ num)%Z as Hnum by (unfold num; lia).
  clearbody num. clear Ht.
  rewrite decide_False by lia. cbn [mbind option_bind].
  set (chunk_size :=
         ((Z.of_nat (length data) `div` (num `min` 1000)) `max` 64)%Z).
  assert (0 < chunk_size)%Z as Hchunk by (unfold chunk_size; lia).
  clearbody chunk_size.
  set (available := (Z.of_nat (length data) `div` chunk_size)%Z).
  assert (0 ≤ available)%Z as Havail.
  { unfold available. apply Z.div_pos; lia. }
  clearbody available.
  set (n1 := (num `min` available)%Z).
  assert (0 ≤ n1 ≤ num)%Z as Hn1 by (unfold n1; lia).
  assert (n1 = 0%Z → available = 0%Z) as Hmin by (unfold n1; lia).
  clearbody n1.
  destruct (decide (n1 = 0%Z)) as [->|Hpos].
  - (* no whole chunk: the first hash is the first one of the second loop *)
    rewrite Hmin by done. rewrite Z.sub_0_r.
    cbn [Z.to_nat seq mapM mbind option_bind mret option_ret].
    rewrite decide_True by lia.
    destruct (Z.to_nat num) as [|k] eqn:Hk; [lia|].
    cbn [seq]. rewrite mapM_cons_eq.
    change (0 + Z.of_nat 0)%Z with 0%Z.
    by rewrite salted_digest_raises.
  - (* the first hash is the one of the first chunk *)
    destruct (Z.to_nat n1) as [|k] eqn:Hk; [lia|].
    cbn [seq]. rewrite mapM_cons_eq.
    change (Z.of_nat 0) with 0%Z.
    by rewrite salted_digest_raises.
Qed.

Lemma generate_and_save_sha3_raises
    sha3_256 input_file output_file target_bits (fs : gmap string (list Z)) :
  (1 ≤ target_bits)%Z →
  _generate_and_save_sha3 sha3_256 input_file output_file target_bits fs = None.
Proof.
  intros Ht. unfold _generate_and_save_sha3.
  destruct (fs !! input_file) as [data|]; [|done].
  cbn [mbind option_bind]. by rewrite whiten_raises.
Qed.

(** C3 fails on the code.  For every [target_bits >= 1], every file
    system and every digest function, [_generate_and_save_sha3] raises
    and returns no bits: its first hash reads the name [hashlib], which
    is imported inside [generate] only (source line 87) and is unbound
    in [_generate_and_save_sha3] (lines 117 and 132).  The hashing
    itself raises on every input data, and nothing is written. *)
Theorem C3_whitening_raises_name_error
    sha3_256 input_file output_file target_bits (fs : gmap string (list Z)) :
  (1 ≤ target_bits)%Z →
  _generate_and_save_sha3 sha3_256 input_file output_file target_bits fs = None ∧
  (∀ data, whiten sha3_256 data target_bits = None) ∧
  (∀ msg, digest_bits sha3_256 msg = None).
Proof.
  intros Ht. split; [by apply generate_and_save_sha3_raises|].
  split; [intros data; by apply whiten_raises|]. intros msg. reflexivity.
Qed.

(** The failing input of C3: one byte in the input file and one bit
    asked for. *)
Lemma C3_witness :
  (1 ≤ 1)%Z ∧
  _generate_and_save_sha3 (λ _, replicate 32 0%Z) "mibis.bin" "sha3.bin" 1
    {["mibis.bin" := [0%Z]]} = None ∧
  (∀ data, whiten (λ _, replicate 32 0%Z) data 1 = None) ∧
  (∀ msg, digest_bits (λ _ : list Z, replicate 32 0%Z) msg = None).
Proof.
  assert (1 ≤ 1)%Z as Ht by lia. split; [exact Ht|].
  exact (C3_whitening_raises_name_error (λ _, replicate 32 0%Z)
           "mibis.bin" "sha3.bin" 1 {["mibis.bin" := [0%Z]]} Ht).
Defined.

(** ** The batch loop *)

Lemma process_bits_total dual raw max_bits :
  ∃ mixed, process_bits dual raw max_bits = Some mixed ∧ 0 < length mixed.
Proof.
  unfold process_bits. set (fed := cap_input raw max_bits).
  destruct dual.
  - destruct (dual_mixer_split fed) as (out1 & out2 & H1 & _ & ->).
    exists (out1 ++ out2). split; [done|].
    destruct (single_mixer_total (take (length fed / 2) fed))
      as (out & Hout & Hlen).
    rewrite length_app. assert (out = out1) as <- by congruence.
    rewrite Hlen.
    pose proof (buffer_size_half _
      (mixing_steps_pos (length (take (length fed / 2) fed)))). lia.
  - destruct (single_mixer_total fed) as (out & -> & Hlen).
    exists out. split; [done|]. rewrite Hlen.
    apply buffer_size_half, mixing_steps_pos.
Qed.

(** The bits fed to the mixers are at most [max_bits] many. *)
Lemma cap_input_length raw mb :
  (0 ≤ mb)%Z → (Z.of_nat (length (cap_input raw (Some mb))) ≤ mb)%Z.
Proof.
  intros. unfold cap_input. case_decide; [|lia].
  rewrite length_py_slice_to by done. lia.
Qed.

Section GenerateFacts.

Variable source : nat → Z → list Z.
Variables (target_bits batch_size : Z) (use_dual_mixers : bool).
Hypothesis batch_pos : (0 < batch_size)%Z.

Local Abbreviation body := (generate_body source target_bits batch_size use_dual_mixers).
Local Abbreviation loop := (generate_loop source target_bits batch_size use_dual_mixers).
Local Abbreviation needed := (bits_needed_of target_bits batch_size).



End GenerateFacts.




(** * Further properties *)

(** ** XOR compression *)

Lemma xor_adjacent_spec (mixed_bits : list Z) :
  ∃ out,
    _xor_adjacent_bits mixed_bits = Some out ∧
    length out = length mixed_bits / 2 ∧
    (∀ i y, out !! i = Some y →
       ∃ a b, mixed_bits !! (2 * i) = Some a ∧
              mixed_bits !! (2 * i + 1) = Some b ∧ y = Z.lxor a b) ∧
    (Forall is_bit mixed_bits → Forall is_bit out) ∧
    (Forall (λ b, b = 0%Z) mixed_bits → Forall (λ b, b = 0%Z) out).
Proof.
  destruct (xor_adjacent_total mixed_bits) as (out & Hout & Hlen).
  exists out. split; [done|]. split; [done|].
  assert (∀ i y, out !! i = Some y →
            ∃ a b, mixed_bits !! (2 * i) = Some a ∧
                   mixed_bits !! (2 * i + 1) = Some b ∧ y = Z.lxor a b)
    as Hpoint.
  { intros i y Hy. unfold _xor_adjacent_bits in Hout.
    rewrite py_range_even in Hout. apply mapM_Some_1 in Hout.
    destruct (Forall2_lookup_r _ _ _ _ _ Hout Hy) as (x & Hx & Hf).
    rewrite list_lookup_fmap in Hx.
    destruct (seq 0 (length mixed_bits / 2) !! i) as [k|] eqn:Hk; [|done].
    apply lookup_seq in Hk as [-> _]. cbn in Hx. injection Hx as <-.
    unfold py_get in Hf. replace (i + (i + 0)) with (2 * i) in Hf by lia.
    destruct (mixed_bits !! (2 * i)) as [a|]; [|done].
    cbn [mbind option_bind] in Hf.
    destruct (mixed_bits !! (2 * i + 1)) as [b|]; [|done].
    cbn [mbind option_bind] in Hf. exists a, b. split_and!; congruence. }
  split; [done|]. split.
  - intros Hbits. apply Forall_lookup. intros i y Hy.
    destruct (Hpoint i y Hy) as (a & b & Ha & Hb & ->).
    rewrite Forall_lookup in Hbits.
    destruct (Hbits _ _ Ha) as [->| ->], (Hbits _ _ Hb) as [->| ->];
      vm_compute; auto.
  - intros Hzero. apply Forall_lookup. intros i y Hy.
    destruct (Hpoint i y Hy) as (a & b & Ha & Hb & ->).
    rewrite Forall_lookup in Hzero.
    by rewrite (Hzero _ _ Ha), (Hzero _ _ Hb).
Qed.

(** X1.  [_xor_adjacent_bits] never raises.  Its output has
    [len // 2] cells, cell [i] is the XOR of cells [2 i] and [2 i + 1] of
    the input (a last unpaired cell is dropped); bits give bits, and an
    all-zero buffer gives an all-zero output. *)
Theorem X1_xor_adjacent_pointwise (mixed_bits : list Z) :
  ∃ out,
    _xor_adjacent_bits mixed_bits = Some out ∧
    length out = length mixed_bits / 2 ∧
    (∀ i y, out !! i = Some y →
       ∃ a b, mixed_bits !! (2 * i) = Some a ∧
              mixed_bits !! (2 * i + 1) = Some b ∧ y = Z.lxor a b) ∧
    (Forall is_bit mixed_bits → Forall is_bit out) ∧
    (Forall (λ b, b = 0%Z) mixed_bits → Forall (λ b, b = 0%Z) out).
Proof. apply xor_adjacent_spec. Qed.


(** ** The cells of the buffer come from the input *)

Section CellsFromInput.

Variable P : Z → Prop.
Hypothesis P_zero : P 0%Z.

Lemma py_set_Forall (buf : list Z) i v buf' :
  py_set buf i v = Some buf' → Forall P buf → P v → Forall P buf'.
Proof.
  unfold py_set. case_decide; [|done]. intros [= <-] Hbuf Hv.
  by apply Forall_insert.
Qed.

Lemma scan_pairs_Forall bits occ :
  Forall P bits →
  ∀ buf idx newp buf' idx' newp',
    scan_pairs bits occ (buf, idx, newp) = Some (buf', idx', newp') →
    Forall P buf → Forall P buf'.
Proof.
  intros Hbits. induction occ as [|l occ IH]; intros buf idx newp buf' idx' newp'.
  { cbn. by intros [= <- _ _]. }
  destruct occ as [|r rest]; [cbn; by intros [= <- _ _]|].
  rewrite scan_pairs_cons. case_decide as Hidx; [|apply IH].
  destruct (buf !! ((l + r) / 2)) as [cur|]; [|done].
  cbn [mbind option_bind]. case_decide; [|apply IH].
  destruct (bits !! idx) as [b|] eqn:Hb; [|done]. cbn [mbind option_bind].
  destruct (py_set buf ((l + r) / 2) b) as [buf1|] eqn:Hset; [|done].
  cbn [mbind option_bind]. intros Hscan Hbuf.
  eapply IH; [done|]. eapply py_set_Forall; [done..|].
  rewrite Forall_lookup in Hbits. by eapply Hbits.
Qed.

Lemma mix_rounds_Forall bits n :
  Forall P bits →
  ∀ st st', mix_rounds n bits st = Some st' →
    Forall P (mixed_buffer st) → Forall P (mixed_buffer st').
Proof.
  intros Hbits. induction n as [|n IH]; intros st st'.
  { cbn. by intros [= <-]. }
  cbn [mix_rounds]. unfold mix_round.
  destruct (scan_pairs bits (occupied_positions st)
              (mixed_buffer st, input_idx st, [])) as [[[buf idx] newp]|] eqn:Hscan;
    [|done].
  cbn [mbind option_bind]. intros Hrun Hbuf.
  pose proof (scan_pairs_Forall bits _ Hbits _ _ _ _ _ _ Hscan Hbuf) as Hbuf'.
  case_decide.
  - injection Hrun as <-. done.
  - by eapply IH.
Qed.

Lemma py_set_last_Forall (buf : list Z) v buf' :
  py_set_last buf v = Some buf' → Forall P buf → P v → Forall P buf'.
Proof.
  unfold py_set_last. case_decide; [|done]. intros [= <-] Hbuf Hv.
  by apply Forall_insert.
Qed.

(** [if cond: buf[...] = bits[i]] *)
Lemma guarded_set_Forall (cond : Prop) `{!Decision cond}
    (bits buf buf' : list Z) (i : nat) (set : Z → option (list Z)) :
  (if decide cond then b ← py_get bits i; set b else Some buf) = Some buf' →
  Forall P bits → Forall P buf →
  (∀ b r, set b = Some r → P b → Forall P r) →
  Forall P buf'.
Proof.
  intros Hrun Hbits Hbuf Hset. case_decide.
  - unfold py_get in Hrun. destruct (bits !! i) as [b|] eqn:Hb; [|done].
    cbn [mbind option_bind] in Hrun. eapply Hset; [done|].
    rewrite Forall_lookup in Hbits. by eapply Hbits.
  - by injection Hrun as <-.
Qed.

Lemma mix_init_Forall bits steps st0 :
  Forall P bits → mix_init bits steps = Some st0 →
  Forall P (mixed_buffer st0).
Proof using P_zero.
  intros Hbits. unfold mix_init. cbv zeta.
  assert (Forall P (replicate (buffer_size steps) 0%Z)) as Hrep
    by by apply Forall_replicate.
  match goal with |- ?m1 ≫= _ = _ → _ =>
    destruct m1 as [buf1|] eqn:H1; [|done] end.
  cbn [mbind option_bind].
  match goal with |- ?m2 ≫= _ = _ → _ =>
    destruct m2 as [buf2|] eqn:H2; [|done] end.
  cbn [mbind option_bind]. intros [= <-]. cbn [mixed_buffer].
  assert (Forall P buf1) as Hbuf1.
  { apply (guarded_set_Forall _ bits _ buf1 0 _ H1); try done.
    intros b r Hr Hb. by eapply py_set_Forall. }
  apply (guarded_set_Forall _ bits buf1 buf2 1 (λ b, py_set_last buf1 b) H2);
    try done.
  intros b r Hr Hb. by eapply py_set_last_Forall.
Qed.

(** Every cell of the buffer returned by [_mix_bits] is [0] or a cell of
    the input: what holds of [0] and of all input cells holds of all
    cells of the buffer. *)
Lemma mix_bits_Forall bits steps buf :
  Forall P bits → _mix_bits bits steps = Some buf → Forall P buf.
Proof using P_zero.
  intros Hbits. unfold _mix_bits. case_decide; [done|].
  assert (Forall P (replicate (buffer_size steps) 0%Z)) as Hrep
    by by apply Forall_replicate.
  case_decide.
  - match goal with |- ?m1 ≫= _ = _ → _ =>
      destruct m1 as [buf1|] eqn:H1; [|done] end.
    cbn [mbind option_bind].
    match goal with |- ?m2 ≫= _ = _ → _ =>
      destruct m2 as [buf2|] eqn:H2; [|done] end.
    cbn [mbind option_bind]. intros [= <-].
    assert (Forall P buf1) as Hbuf1.
    { apply (guarded_set_Forall _ bits _ buf1 0 _ H1); try done.
      intros b r Hr Hb. by eapply py_set_Forall. }
    apply (guarded_set_Forall _ bits buf1 buf2 1 (λ b, py_set buf1 1 b) H2);
      try done.
    intros b r Hr Hb. by eapply py_set_Forall.
  - unfold mix_state_after.
    destruct (mix_init bits steps) as [st0|] eqn:Hinit; [|done].
    cbn [mbind option_bind].
    destruct (mix_rounds (steps - 1) bits st0) as [st|] eqn:Hrun; [|done].
    cbn [mbind option_bind]. intros [= <-].
    apply (mix_rounds_Forall bits (steps - 1) Hbits st0 st Hrun).
    apply (mix_init_Forall bits steps st0 Hbits Hinit).
Qed.

End CellsFromInput.

(** ** Bits in, bits out *)

Lemma is_bit_0 : is_bit 0.
Proof. by left. Qed.

Lemma single_mixer_bits bits out :
  Forall is_bit bits → _process_with_single_mixer bits = Some out →
  Forall is_bit out.
Proof.
  intros Hbits. unfold _process_with_single_mixer.
  destruct (_mix_bits bits _) as [buf|] eqn:Hmix; [|done].
  cbn [mbind option_bind]. intros Hxor.
  pose proof (mix_bits_Forall is_bit is_bit_0 _ _ _ Hbits Hmix) as Hbuf.
  destruct (xor_adjacent_spec buf) as (out' & Hout & _ & _ & Hb & _).
  assert (out' = out) as -> by congruence. by apply Hb.
Qed.

Lemma cap_input_bits raw max_bits :
  Forall is_bit raw → Forall is_bit (cap_input raw max_bits).
Proof.
  intros Hraw. unfold cap_input. destruct max_bits as [mb|]; [|done].
  case_decide; [|done]. unfold py_slice_to. case_decide; by apply Forall_take.
Qed.

Lemma process_bits_bits dual raw max_bits :
  Forall is_bit raw →
  ∃ out, process_bits dual raw max_bits = Some out ∧
         0 < length out ∧ Forall is_bit out.
Proof.
  intros Hraw.
  destruct (process_bits_total dual raw max_bits) as (out & Hout & Hpos).
  exists out. split; [done|]. split; [done|].
  pose proof (cap_input_bits raw max_bits Hraw) as Hfed.
  unfold process_bits in Hout. set (fed := cap_input raw max_bits) in *.
  destruct dual.
  - destruct (dual_mixer_split fed) as (out1 & out2 & H1 & H2 & Hd).
    assert (out = out1 ++ out2) as -> by congruence.
    apply Forall_app. split.
    + apply (single_mixer_bits (take (length fed / 2) fed)); [|done].
      by apply Forall_take.
    + apply (single_mixer_bits (drop (length fed / 2) fed)); [|done].
      by apply Forall_drop.
  - by apply (single_mixer_bits fed).
Qed.

(** X2.  In either mode and with any cap, [process_bits] applied to
    bits never raises and returns a nonempty list of bits. *)
Theorem X2_process_bits_gives_bits dual raw max_bits :
  Forall is_bit raw →
  ∃ out, process_bits dual raw max_bits = Some out ∧
         0 < length out ∧ Forall is_bit out.
Proof. apply process_bits_bits. Qed.

Lemma X2_witness :
  Forall is_bit [1; 0; 1; 1; 0]%Z ∧
  ∃ out, process_bits true [1; 0; 1; 1; 0]%Z (Some 4%Z) = Some out ∧
         0 < length out ∧ Forall is_bit out.
Proof.
  assert (Forall is_bit [1; 0; 1; 1; 0]%Z) as Hbits.
  { repeat constructor; (by left) || (by right). }
  split; [exact Hbits|].
  exact (X2_process_bits_gives_bits true [1; 0; 1; 1; 0]%Z (Some 4%Z) Hbits).
Defined.

(** ** How much the mixers compress *)

Lemma single_mixer_ratio bits :
  3 ≤ length bits →
  ∃ out, _process_with_single_mixer bits = Some out ∧
         length bits ≤ 4 * length out ∧ 2 * length out + 1 ≤ length bits.
Proof.
  intros Hn. destruct (single_mixer_total bits) as (out & Hout & Hlen).
  exists out. split; [done|]. rewrite Hlen.
  rewrite buffer_size_mixing_steps by lia.
  destruct (Nat.log2_spec (length bits - 1)) as [Hlo Hhi]; [lia|].
  assert (0 < Nat.log2 (length bits - 1)) as Hpos by (apply Nat.log2_pos; lia).
  destruct (Nat.log2 (length bits - 1)) as [|j]; [lia|].
  rewrite pow2_plus1_half. rewrite !Nat.pow_succ_r' in Hhi.
  rewrite Nat.pow_succ_r' in Hlo. lia.
Qed.

(** X3.  Fed [n >= 3] bits, the single mixer returns between [n / 4]
    and [(n - 1) / 2] bits: it always discards more than half of what it
    is fed. *)
Theorem X3_single_mixer_ratio bits :
  3 ≤ length bits →
  ∃ out, _process_with_single_mixer bits = Some out ∧
         length bits ≤ 4 * length out ∧ 2 * length out + 1 ≤ length bits.
Proof. apply single_mixer_ratio. Qed.

Lemma X3_witness :
  3 ≤ length [0; 1; 1; 0; 1; 1; 0; 1]%Z ∧
  ∃ out, _process_with_single_mixer [0; 1; 1; 0; 1; 1; 0; 1]%Z = Some out ∧
         length [0; 1; 1; 0; 1; 1; 0; 1]%Z ≤ 4 * length out ∧
         2 * length out + 1 ≤ length [0; 1; 1; 0; 1; 1; 0; 1]%Z.
Proof.
  split; [simpl; lia|].
  apply (X3_single_mixer_ratio [0; 1; 1; 0; 1; 1; 0; 1]%Z). simpl; lia.
Defined.

(** X4.  Fed [n >= 6] bits, the dual mixer returns between [n / 4] and
    [(n - 2) / 2] bits. *)
Theorem X4_dual_mixer_ratio bits :
  6 ≤ length bits →
  ∃ out, _process_with_dual_mixers bits = Some out ∧
         length bits ≤ 4 * length out ∧ 2 * length out + 2 ≤ length bits.
Proof.
  intros Hn.
  destruct (dual_mixer_split bits) as (out1 & out2 & H1 & H2 & Hd).
  exists (out1 ++ out2). split; [done|].
  destruct (single_mixer_ratio (take (length bits / 2) bits))
    as (o1 & Ho1 & Hlo1 & Hhi1); [rewrite length_take; lia|].
  destruct (single_mixer_ratio (drop (length bits / 2) bits))
    as (o2 & Ho2 & Hlo2 & Hhi2); [rewrite length_drop; lia|].
  assert (o1 = out1) as -> by congruence.
  assert (o2 = out2) as -> by congruence.
  rewrite length_take in Hlo1, Hhi1. rewrite length_drop in Hlo2, Hhi2.
  rewrite length_app. lia.
Qed.

Lemma X4_witness :
  6 ≤ length [0; 1; 1; 0; 1; 1; 0; 1]%Z ∧
  ∃ out, _process_with_dual_mixers [0; 1; 1; 0; 1; 1; 0; 1]%Z = Some out ∧
         length [0; 1; 1; 0; 1; 1; 0; 1]%Z ≤ 4 * length out ∧
         2 * length out + 2 ≤ length [0; 1; 1; 0; 1; 1; 0; 1]%Z.
Proof.
  split; [simpl; lia|].
  apply (X4_dual_mixer_ratio [0; 1; 1; 0; 1; 1; 0; 1]%Z). simpl; lia.
Defined.

(** ** Where each input bit lands *)

Lemma grid_unit_gap a c : grid a 1 c = seq a (S c).
Proof.
  unfold grid. revert a. induction c as [|c IH]; intros a; [done|].
  cbn [steps_from seq]. f_equal. replace (a + 1) with (S a) by lia.
  specialize (IH (S a)). cbn [seq] in IH. done.
Qed.

Lemma pow2_pred j : 0 < j → 2 ^ j = 2 * 2 ^ (j - 1).
Proof.
  intros. replace j with (S (j - 1)) at 1 by lia. apply Nat.pow_succ_r'.
Qed.

(** The grid together with the slots of the next [k] rounds is the grid
    of the gap reached after those rounds. *)
Lemma grid_rounds_perm k :
  ∀ j c, k ≤ j →
  grid 0 (2 ^ j) c ++ rounds_order j c k ≡ₚ grid 0 (2 ^ (j - k)) (c * 2 ^ k).
Proof.
  induction k as [|k IH]; intros j c Hk.
  - cbn [rounds_order]. rewrite app_nil_r, Nat.sub_0_r, Nat.pow_0_r.
    by rewrite Nat.mul_1_r.
  - cbn [rounds_order]. rewrite app_assoc.
    rewrite (pow2_pred j) at 1 by lia.
    rewrite grid_mids_perm, IH by lia.
    replace (j - 1 - k) with (j - S k) by lia.
    replace (2 * c * 2 ^ k) with (c * 2 ^ S k); [done|].
    rewrite Nat.pow_succ_r'. lia.
Qed.

Lemma placement_order_perm steps :
  placement_order steps ≡ₚ seq 0 (buffer_size steps).
Proof.
  unfold placement_order, buffer_size.
  change [0; 2 ^ (steps - 1)] with (grid 0 (2 ^ (steps - 1)) 1).
  rewrite grid_rounds_perm by lia.
  rewrite Nat.sub_diag, Nat.pow_0_r, grid_unit_gap.
  by rewrite Nat.mul_1_l, Nat.add_1_r.
Qed.

Lemma placement_order_NoDup steps : NoDup (placement_order steps).
Proof. rewrite placement_order_perm. apply NoDup_seq. Qed.

Lemma placement_order_bound steps p :
  p ∈ placement_order steps → p < buffer_size steps.
Proof. rewrite placement_order_perm, elem_of_seq. lia. Qed.

(** The values written by the inner loop on a grid: the [i]-th midpoint
    assigned receives the input bit number [idx + i]. *)
Lemma scan_pairs_grid_values bits h c :
  0 < h → ∀ a buf idx newp buf' idx' newp',
  a + c * (2 * h) < length buf →
  (∀ p, p ∈ mids a h c → buf !! p = Some 0%Z) →
  scan_pairs bits (grid a (2 * h) c) (buf, idx, newp)
  = Some (buf', idx', newp') →
  ∀ i p, take (c `min` (length bits - idx)) (mids a h c) !! i = Some p →
         buf' !! p = bits !! (idx + i).
Proof.
  intros Hh. induction c as [|c IH];
    intros a buf idx newp buf' idx' newp' Hlen Hzero Hscan i p Hp.
  { cbn [mids] in Hp. by rewrite take_nil, lookup_nil in Hp. }
  destruct (decide (idx < length bits)) as [Hidx|Hidx].
  - unfold grid in Hscan. cbn [steps_from] in Hscan.
    rewrite scan_pairs_cons, midpoint_grid, decide_True in Hscan by done.
    rewrite (Hzero (a + h)) in Hscan by (simpl; left).
    cbn [mbind option_bind] in Hscan. rewrite decide_True in Hscan by done.
    destruct (lookup_lt_is_Some_2 bits idx Hidx) as [b Hb].
    rewrite Hb in Hscan. cbn [mbind option_bind] in Hscan.
    rewrite py_set_Some in Hscan by lia. cbn [mbind option_bind] in Hscan.
    fold (grid (a + 2 * h) (2 * h) c) in Hscan.
    assert (a + 2 * h + c * (2 * h) < length (<[a + h:=b]> buf)) as Hlen1
      by (rewrite length_insert; lia).
    assert (∀ q, q ∈ mids (a + 2 * h) h c → <[a + h:=b]> buf !! q = Some 0%Z)
      as Hzero1.
    { intros q Hq. rewrite list_lookup_insert_ne.
      - apply Hzero. simpl. by right.
      - apply mids_bounds in Hq. lia. }
    replace (S c `min` (length bits - idx))
      with (S (c `min` (length bits - (idx + 1)))) in Hp by lia.
    cbn [mids take] in Hp. destruct i as [|i].
    + injection Hp as <-.
      destruct (scan_pairs_grid bits h c Hh (a + 2 * h) (<[a + h:=b]> buf)
                  (idx + 1) (newp ++ [a + h]) Hlen1 Hzero1)
        as (buf'' & Hscan' & _ & Hsame).
      rewrite Hscan in Hscan'. injection Hscan' as -> _ _.
      rewrite Hsame.
      * rewrite list_lookup_insert_eq by lia. by rewrite Nat.add_0_r.
      * intros Hin%subseteq_take%mids_bounds. lia.
    + cbn [lookup list_lookup] in Hp.
      rewrite (IH _ _ _ _ _ _ _ Hlen1 Hzero1 Hscan i p Hp). f_equal. lia.
  - replace (S c `min` (length bits - idx)) with 0 in Hp by lia.
    by rewrite take_0 in Hp.
Qed.

(** One round on a grid, with what it assigns. *)
Lemma mix_round_scatter bits m h c st :
  0 < h → grid_inv m (2 * h) c st →
  ∃ st1, mix_round bits st = Some st1 ∧
    input_idx st1 = input_idx st + c `min` (length bits - input_idx st) ∧
    assigned st1
    = assigned st
      ++ take (c `min` (length bits - input_idx st)) (mids 0 h c) ∧
    (∀ i p, take (c `min` (length bits - input_idx st)) (mids 0 h c) !! i
            = Some p →
            mixed_buffer st1 !! p = bits !! (input_idx st + i)) ∧
    (∀ p, p ∉ take (c `min` (length bits - input_idx st)) (mids 0 h c) →
          mixed_buffer st1 !! p = mixed_buffer st !! p).
Proof.
  intros Hh [Hocc Hsize Hok].
  destruct st as [buf idx occ asg].
  cbn [occupied_positions] in Hocc. subst occ.
  destruct Hok as [Hlen _ _ _ _ Honce Hasg Hzero].
  cbn [mixed_buffer occupied_positions assigned input_idx] in *.
  pose proof (grid_mids_NoDup 0 h c Hh) as Hnd.
  apply NoDup_app in Hnd as (_ & Hdisj & _).
  assert (0 + c * (2 * h) < length buf) as Hlen0 by lia.
  assert (∀ p, p ∈ mids 0 h c → buf !! p = Some 0%Z) as Hzero0.
  { intros p Hp. apply Hzero.
    - apply mids_bounds in Hp. lia.
    - intros Hin. apply Hasg in Hin. by apply (Hdisj p). }
  destruct (scan_pairs_grid bits h c Hh 0 buf idx [] Hlen0 Hzero0)
    as (buf' & Hscan & _ & Hsame).
  pose proof (scan_pairs_grid_values bits h c Hh _ _ _ _ _ _ _
                Hlen0 Hzero0 Hscan) as Hvals.
  unfold mix_round. cbn [mixed_buffer occupied_positions assigned input_idx].
  rewrite Hscan. cbn [mbind option_bind app].
  eexists. split; [done|].
  cbn [mixed_buffer occupied_positions assigned input_idx]. done.
Qed.

(** [k] rounds on a grid of gap [2 ^ j]: the bits left in the input go,
    in order, to the slots listed by [rounds_order]. *)
Lemma mix_rounds_scatter bits m k :
  ∀ j c st, k ≤ j → grid_inv m (2 ^ j) c st →
  ∃ st', mix_rounds k bits st = Some st' ∧ filled_ok m st' ∧
    assigned st'
    = assigned st
      ++ take (length bits - input_idx st) (rounds_order j c k) ∧
    (∀ i p, take (length bits - input_idx st) (rounds_order j c k) !! i
            = Some p →
            mixed_buffer st' !! p = bits !! (input_idx st + i)) ∧
    (∀ p, p ∉ take (length bits - input_idx st) (rounds_order j c k) →
          mixed_buffer st' !! p = mixed_buffer st !! p).
Proof.
  induction k as [|k IH]; intros j c st Hk Hinv.
  { exists st. cbn [mix_rounds rounds_order]. rewrite take_nil, app_nil_r.
    split_and!; [done|apply Hinv|done| |done].
    intros i p. by rewrite lookup_nil. }
  assert (0 < 2 ^ (j - 1)) as Hh by (apply Nat.neq_0_lt_0, Nat.pow_nonzero; lia).
  rewrite (pow2_pred j) in Hinv by lia.
  destruct (mix_round_scatter bits m (2 ^ (j - 1)) c st Hh Hinv)
    as (st1 & Hround & Hidx1 & Hasg1 & Hval1 & Hsame1).
  destruct (mix_round_grid bits m (2 ^ (j - 1)) c st Hh Hinv)
    as (st1' & Hround' & Hok1 & Hnext).
  assert (st1' = st1) as -> by congruence.
  cbn [mix_rounds rounds_order]. rewrite Hround. cbn [mbind option_bind].
  set (n := c `min` (length bits - input_idx st)) in *.
  pose proof (length_mids 0 (2 ^ (j - 1)) c) as Hlm.
  destruct (decide (length bits ≤ input_idx st1)) as [Hbreak|Hmore].
  - (* the input ran out in this round *)
    exists st1.
    assert (take (length bits - input_idx st)
              (mids 0 (2 ^ (j - 1)) c ++ rounds_order (j - 1) (2 * c) k)
            = take n (mids 0 (2 ^ (j - 1)) c)) as ->.
    { rewrite take_app_le by lia. f_equal. lia. }
    done.
  - (* the round filled every gap and the loop goes on *)
    assert (n = c) as Hn by lia.
    assert (take n (mids 0 (2 ^ (j - 1)) c) = mids 0 (2 ^ (j - 1)) c) as Hfull
      by (apply take_ge; lia).
    rewrite Hfull in Hasg1, Hval1, Hsame1.
    destruct (IH (j - 1) (2 * c) st1) as (st' & Hrun & Hok & Hasg & Hval & Hsame);
      [lia|apply Hnext; lia|].
    exists st'. split; [done|]. split; [done|].
    assert (take (length bits - input_idx st)
              (mids 0 (2 ^ (j - 1)) c ++ rounds_order (j - 1) (2 * c) k)
            = mids 0 (2 ^ (j - 1)) c
              ++ take (length bits - input_idx st1)
                   (rounds_order (j - 1) (2 * c) k)) as ->.
    { rewrite take_app_ge by lia. do 2 f_equal. lia. }
    set (later := take (length bits - input_idx st1)
                    (rounds_order (j - 1) (2 * c) k)) in *.
    assert (∀ p, p ∈ mids 0 (2 ^ (j - 1)) c → p ∉ later) as Hdisj.
    { intros p Hp. pose proof (ok_once _ _ Hok) as Hnd.
      rewrite Hasg, Hasg1 in Hnd. apply NoDup_app in Hnd as (_ & Hd & _).
      apply Hd, elem_of_app. by right. }
    split_and!.
    + by rewrite Hasg, Hasg1, app_assoc.
    + intros i p Hp. destruct (decide (i < c)) as [Hi|Hi].
      * rewrite lookup_app_l in Hp by lia.
        rewrite Hsame by (apply Hdisj; by eapply list_elem_of_lookup_2).
        by apply Hval1.
      * rewrite lookup_app_r in Hp by lia. rewrite Hlm in Hp.
        rewrite (Hval _ _ Hp). f_equal. lia.
    + intros p Hp. rewrite not_elem_of_app in Hp. destruct Hp as [Hp1 Hp2].
      rewrite Hsame by done. by apply Hsame1.
Qed.

(** The state on entry to the round loop, with what it assigned. *)
Lemma mix_init_scatter bits steps :
  ∃ st0, mix_init bits steps = Some st0 ∧
    grid_inv (buffer_size steps) (2 ^ (steps - 1)) 1 st0 ∧
    input_idx st0 = 2 ∧
    assigned st0 = take (length bits) [0; 2 ^ (steps - 1)] ∧
    (∀ i p, take (length bits) [0; 2 ^ (steps - 1)] !! i = Some p →
            mixed_buffer st0 !! p = bits !! i).
Proof.
  destruct (mix_init_grid bits steps) as (st0 & Hinit & Hinv).
  exists st0. split; [done|]. split; [done|].
  revert Hinit. unfold mix_init, buffer_size.
  assert (0 < 2 ^ (steps - 1)) as Hpos.
  { apply Nat.neq_0_lt_0, Nat.pow_nonzero. lia. }
  set (M := 2 ^ (steps - 1)) in *. clearbody M.
  replace (M + 1 - 1) with M by lia.
  destruct bits as [|b0 [|b1 bits]]; cbn [length take].
  - run_monad. intros [= <-]. cbn [input_idx assigned mixed_buffer app].
    split_and!; [done..|]. intros i p Hp. by destruct i.
  - run_monad. intros [= <-]. cbn [input_idx assigned mixed_buffer app].
    split_and!; [done..|].
    intros [|i] p; [|by destruct i]. intros [= <-].
    by rewrite list_lookup_insert_eq by (rewrite length_replicate; lia).
  - run_monad. unfold py_set_last.
    rewrite decide_True by (rewrite length_insert, length_replicate; lia).
    run_monad. rewrite length_insert, length_replicate.
    replace (M + 1 - 1) with M by lia. rewrite take_nil.
    intros [= <-]. cbn [input_idx assigned mixed_buffer app].
    split_and!; [done..|].
    intros [|[|i]] p; [| |by destruct i]; intros [= <-].
    + rewrite list_lookup_insert_ne by lia.
      by rewrite list_lookup_insert_eq by (rewrite length_replicate; lia).
    + by rewrite list_lookup_insert_eq
        by (rewrite length_insert, length_replicate; lia).
Qed.

(** The buffer returned by [_mix_bits]: slot [placement_order steps [i]]
    holds the input bit number [i], or [0] when the input has no such
    bit. *)
Lemma mix_bits_placement bits steps :
  0 < steps →
  ∃ buf, _mix_bits bits steps = Some buf ∧
         length buf = buffer_size steps ∧
         ∀ i p, placement_order steps !! i = Some p →
                buf !! p = Some (default 0%Z (bits !! i)).
Proof.
  intros Hs. destruct (decide (steps = 1)) as [->|Hne].
  - unfold _mix_bits. rewrite decide_False, decide_True by lia.
    change (buffer_size 1) with 2. change (placement_order 1) with [0; 1].
    destruct bits as [|b0 [|b1 bits]]; run_monad;
      (eexists; split; [done|]; split; [done|]);
      intros [|[|i]] p Hp; try (by destruct i); by injection Hp as <-.
  - destruct (mix_init_scatter bits steps)
      as (st0 & Hinit & Hinv & Hidx0 & Hasg0 & Hval0).
    destruct (mix_rounds_scatter bits (buffer_size steps) (steps - 1)
                (steps - 1) 1 st0) as (st & Hrun & Hok & Hasg & Hval & Hsame);
      [done..|].
    rewrite Hidx0 in Hasg, Hval, Hsame.
    set (rest := rounds_order (steps - 1) 1 (steps - 1)) in *.
    set (placed := take (length bits - 2) rest) in *.
    assert (assigned st = take (length bits) (placement_order steps))
      as Hasg_all.
    { rewrite Hasg, Hasg0. unfold placement_order. by rewrite take_app. }
    exists (mixed_buffer st). split.
    { unfold _mix_bits, mix_state_after.
      rewrite !decide_False by lia. rewrite Hinit. cbn [mbind option_bind].
      rewrite Hrun. done. }
    split; [apply Hok|].
    intros i p Hp. destruct (decide (i < length bits)) as [Hi|Hi].
    + destruct (lookup_lt_is_Some_2 bits i Hi) as [b Hb]. rewrite Hb.
      change (default 0%Z (Some b)) with b. rewrite <-Hb.
      unfold placement_order in Hp. fold rest in Hp.
      apply lookup_app_Some in Hp as [Hp|[Hge Hp]].
      * assert (take (length bits) [0; 2 ^ (steps - 1)] !! i = Some p) as Hp0.
        { rewrite lookup_take_lt by lia. done. }
        rewrite Hsame; [by apply Hval0|].
        pose proof (ok_once _ _ Hok) as Hnd. rewrite Hasg in Hnd.
        apply NoDup_app in Hnd as (_ & Hd & _). apply Hd.
        rewrite Hasg0. by eapply list_elem_of_lookup_2.
      * cbn [length] in Hge, Hp.
        rewrite (Hval (i - 2) p).
        -- f_equal. lia.
        -- unfold placed. rewrite lookup_take_lt by lia. done.
    + rewrite (lookup_ge_None_2 bits i) by lia.
      change (default 0%Z None) with 0%Z.
      apply (ok_zero _ _ Hok).
      * apply placement_order_bound. by eapply list_elem_of_lookup_2.
      * rewrite Hasg_all. intros (i' & Hi' & Hlt)%elem_of_take.
        pose proof (NoDup_lookup _ _ _ _ (placement_order_NoDup steps) Hp Hi').
        lia.
Qed.

(** X5.  For [steps >= 1], [_mix_bits] scatters the input in a fixed
    order that depends on [steps] only: the input bit number [i] is
    written to slot [placement_order steps [i]] (first the two ends of the
    buffer, then the midpoints round by round, left to right), and a slot
    whose number [i] is beyond the input holds [0].  The order lists every
    slot of the buffer exactly once, so this fixes the whole buffer. *)
Theorem X5_mix_bits_placement bits steps :
  0 < steps →
  placement_order steps ≡ₚ seq 0 (buffer_size steps) ∧
  ∃ buf, _mix_bits bits steps = Some buf ∧
         length buf = buffer_size steps ∧
         ∀ i p, placement_order steps !! i = Some p →
                buf !! p = Some (default 0%Z (bits !! i)).
Proof.
  intros Hs. split; [apply placement_order_perm|by apply mix_bits_placement].
Qed.

Lemma X5_witness :
  0 < 3 ∧
  placement_order 3 ≡ₚ seq 0 (buffer_size 3) ∧
  ∃ buf, _mix_bits [0; 1; 1; 0; 1; 1; 0; 1]%Z 3 = Some buf ∧
         length buf = buffer_size 3 ∧
         ∀ i p, placement_order 3 !! i = Some p →
                buf !! p
                = Some (default 0%Z ([0; 1; 1; 0; 1; 1; 0; 1]%Z !! i)).
Proof.
  split; [lia|]. apply (X5_mix_bits_placement [0; 1; 1; 0; 1; 1; 0; 1]%Z 3). lia.
Defined.

Lemma mix_bits_lookup_eq bits1 bits2 steps buf1 buf2 :
  0 < steps →
  (∀ i, i < buffer_size steps → bits1 !! i = bits2 !! i) →
  _mix_bits bits1 steps = Some buf1 → _mix_bits bits2 steps = Some buf2 →
  buf1 = buf2.
Proof.
  intros Hs Hsame H1 H2.
  destruct (mix_bits_placement bits1 steps Hs) as (b1 & Hb1 & Hl1 & Hp1).
  destruct (mix_bits_placement bits2 steps Hs) as (b2 & Hb2 & Hl2 & Hp2).
  assert (b1 = buf1) as -> by congruence.
  assert (b2 = buf2) as -> by congruence.
  apply list_eq. intros p.
  destruct (decide (p < buffer_size steps)) as [Hp|Hp].
  - assert (p ∈ placement_order steps) as Hin
      by (rewrite placement_order_perm, elem_of_seq; lia).
    apply list_elem_of_lookup_1 in Hin as [i Hi].
    rewrite (Hp1 _ _ Hi), (Hp2 _ _ Hi), Hsame; [done|].
    apply lookup_lt_Some in Hi.
    by rewrite placement_order_perm, length_seq in Hi.
  - by rewrite !lookup_ge_None_2 by lia.
Qed.

(** X6.  Input bits beyond the size of the buffer have no effect:
    [_mix_bits] returns the same buffer for the input cut to its first
    [buffer_size steps] bits. *)
Theorem X6_mix_bits_ignores_excess bits steps :
  0 < steps →
  ∃ buf, _mix_bits bits steps = Some buf ∧
         _mix_bits (take (buffer_size steps) bits) steps = Some buf.
Proof.
  intros Hs.
  destruct (mix_bits_total bits steps Hs) as (buf1 & H1 & _).
  destruct (mix_bits_total (take (buffer_size steps) bits) steps Hs)
    as (buf2 & H2 & _).
  exists buf1. split; [done|]. rewrite H2. f_equal. symmetry.
  apply (mix_bits_lookup_eq bits (take (buffer_size steps) bits) steps);
    try done.
  intros i Hi. by rewrite lookup_take_lt.
Qed.

Lemma X6_witness :
  0 < 3 ∧
  ∃ buf, _mix_bits [0; 1; 1; 0; 1; 1; 0; 1]%Z 3 = Some buf ∧
         _mix_bits (take (buffer_size 3) [0; 1; 1; 0; 1; 1; 0; 1]%Z) 3
         = Some buf.
Proof.
  split; [lia|]. apply (X6_mix_bits_ignores_excess [0; 1; 1; 0; 1; 1; 0; 1]%Z 3).
  lia.
Defined.

Lemma mix_bits_full_perm bits steps :
  0 < steps → buffer_size steps ≤ length bits →
  ∃ buf, _mix_bits bits steps = Some buf ∧
         buf ≡ₚ take (buffer_size steps) bits.
Proof.
  intros Hs Hlen.
  destruct (mix_bits_placement bits steps Hs) as (buf & Hbuf & Hl & Hplace).
  exists buf. split; [done|].
  set (m := buffer_size steps) in *.
  set (f := λ p : nat, default 0%Z (buf !! p)).
  assert (buf = f <$> seq 0 m) as Hseq.
  { apply list_eq. intros p. rewrite list_lookup_fmap.
    destruct (decide (p < m)) as [Hp|Hp].
    - rewrite lookup_seq_lt by done. cbn. unfold f.
      destruct (lookup_lt_is_Some_2 buf p) as [x ->]; [lia|]. done.
    - rewrite lookup_seq_ge by lia. by rewrite lookup_ge_None_2 by lia. }
  assert (take m bits = f <$> placement_order steps) as Hord.
  { apply list_eq. intros i. rewrite list_lookup_fmap.
    destruct (placement_order steps !! i) as [p|] eqn:Hp.
    - cbn. unfold f. rewrite (Hplace _ _ Hp). cbn.
      apply lookup_lt_Some in Hp.
      rewrite placement_order_perm, length_seq in Hp. fold m in Hp.
      rewrite lookup_take_lt by done.
      destruct (lookup_lt_is_Some_2 bits i) as [b ->]; [lia|]. done.
    - cbn. apply lookup_ge_None in Hp.
      rewrite placement_order_perm, length_seq in Hp. fold m in Hp.
      apply lookup_ge_None_2. rewrite length_take. lia. }
  rewrite Hord, Hseq at 1. by rewrite placement_order_perm.
Qed.

(** X7.  When the input has at least as many bits as the buffer has
    slots, every slot receives an input bit: the buffer is a
    rearrangement of the first [buffer_size steps] input bits. *)
Theorem X7_mix_bits_permutes_prefix bits steps :
  0 < steps → buffer_size steps ≤ length bits →
  ∃ buf, _mix_bits bits steps = Some buf ∧
         buf ≡ₚ take (buffer_size steps) bits.
Proof. apply mix_bits_full_perm. Qed.

Lemma X7_witness :
  0 < 3 ∧ buffer_size 3 ≤ length [0; 1; 1; 0; 1; 1; 0; 1]%Z ∧
  ∃ buf, _mix_bits [0; 1; 1; 0; 1; 1; 0; 1]%Z 3 = Some buf ∧
         buf ≡ₚ take (buffer_size 3) [0; 1; 1; 0; 1; 1; 0; 1]%Z.
Proof.
  split; [lia|]. split; [vm_compute; lia|].
  apply (X7_mix_bits_permutes_prefix [0; 1; 1; 0; 1; 1; 0; 1]%Z 3).
  - lia.
  - vm_compute; lia.
Defined.

(** X8.  In the single mixer, with the number of steps computed from a
    length [n >= 2], the buffer holds exactly the first
    [2 ^ (steps - 1) + 1 <= n] input bits, rearranged; the other
    [n - buffer_size] input bits are not used. *)
Theorem X8_single_mixer_uses_prefix bits :
  2 ≤ length bits →
  let steps := _calculate_mixing_steps (length bits) in
  buffer_size steps ≤ length bits ∧
  ∃ buf, _mix_bits bits steps = Some buf ∧
         buf ≡ₚ take (buffer_size steps) bits ∧
         _mix_bits (take (buffer_size steps) bits) steps = Some buf.
Proof.
  intros Hn steps.
  assert (buffer_size steps ≤ length bits) as Hcap.
  { unfold steps. rewrite buffer_size_mixing_steps by lia.
    destruct (Nat.log2_spec (length bits - 1)) as [Hlo _]; lia. }
  split; [done|].
  destruct (mix_bits_full_perm bits steps) as (buf & Hbuf & Hperm);
    [apply mixing_steps_pos|done|].
  exists buf. split; [done|]. split; [done|].
  destruct (mix_bits_total (take (buffer_size steps) bits) steps)
    as (buf2 & H2 & _); [apply mixing_steps_pos|].
  rewrite H2. f_equal.
  apply (mix_bits_lookup_eq (take (buffer_size steps) bits) bits steps);
    try done; [apply mixing_steps_pos|].
  intros i Hi. by rewrite lookup_take_lt.
Qed.

Lemma X8_witness :
  2 ≤ length [0; 1; 1; 0; 1; 1; 0; 1]%Z ∧
  let steps := _calculate_mixing_steps (length [0; 1; 1; 0; 1; 1; 0; 1]%Z) in
  buffer_size steps ≤ length [0; 1; 1; 0; 1; 1; 0; 1]%Z ∧
  ∃ buf, _mix_bits [0; 1; 1; 0; 1; 1; 0; 1]%Z steps = Some buf ∧
         buf ≡ₚ take (buffer_size steps) [0; 1; 1; 0; 1; 1; 0; 1]%Z ∧
         _mix_bits (take (buffer_size steps) [0; 1; 1; 0; 1; 1; 0; 1]%Z) steps
         = Some buf.
Proof.
  split; [simpl; lia|].
  apply (X8_single_mixer_uses_prefix [0; 1; 1; 0; 1; 1; 0; 1]%Z). simpl; lia.
Defined.

(** ** Loading, and saving what was loaded *)

Lemma unpack_spec data :
  length (FileOperations.unpack data None) = 8 * length data ∧
  Forall is_bit (FileOperations.unpack data None).
Proof. apply bind_byte_bits_spec. Qed.

Lemma py_slice_to_Forall {A} (P : A → Prop) k (xs : list A) :
  Forall P xs → Forall P (py_slice_to k xs).
Proof. intros. unfold py_slice_to. case_decide; by apply Forall_take. Qed.

(** X9.  Whatever the file holds, [load_bits_from_file] returns cells
    that are [0] or [1].  With no limit it returns eight bits per byte,
    and none for a missing file; with a limit [k >= 0] it returns the
    first [k] of those bits (all of them when there are no more than
    [k]). *)
Theorem X9_load_returns_bits filename max_bits (fs : gmap string (list Z)) :
  Forall is_bit (FileOperations.load_bits_from_file filename max_bits fs) ∧
  length (FileOperations.load_bits_from_file filename None fs)
  = 8 * length (default [] (fs !! filename)) ∧
  (∀ k, (0 ≤ k)%Z →
     FileOperations.load_bits_from_file filename (Some k) fs
     = take (Z.to_nat k) (FileOperations.load_bits_from_file filename None fs)).
Proof.
  unfold FileOperations.load_bits_from_file.
  destruct (fs !! filename) as [data|]; cbn [default].
  - destruct (unpack_spec data) as [Hlen Hbits]. split_and!.
    + unfold FileOperations.unpack in *. destruct max_bits as [mb|]; [|done].
      case_decide; [|done]. by apply py_slice_to_Forall.
    + done.
    + intros k Hk. unfold FileOperations.unpack.
      case_decide as Hlt.
      * unfold py_slice_to. by rewrite decide_True.
      * rewrite take_ge; [done|]. lia.
  - split_and!; [done|done|]. intros k _. by rewrite take_nil.
Qed.

(** Every byte is the number written by its eight bits. *)
Lemma bits_value_byte_bits v :
  (0 ≤ v < 256)%Z → bits_value (byte_bits v) = v.
Proof.
  intros Hv.
  assert (Forall (λ v, Is_true (bits_value (byte_bits v) =? v)%Z)
            (seqZ 0 256)) as Hall.
  { apply forallb_True. vm_compute. exact I. }
  rewrite Forall_forall in Hall.
  specialize (Hall v). rewrite elem_of_seqZ in Hall.
  apply Z.eqb_eq, Is_true_true, Hall. lia.
Qed.

Lemma bind_byte_bits_inj (xs ys : list Z) :
  Forall (λ v, 0 ≤ v < 256)%Z xs → Forall (λ v, 0 ≤ v < 256)%Z ys →
  xs ≫= byte_bits = ys ≫= byte_bits → xs = ys.
Proof.
  intros Hxs. revert ys. induction Hxs as [|x xs Hx _ IH]; intros ys Hys Heq.
  - destruct ys as [|y ys]; [done|]. by rewrite bind_cons in Heq.
  - destruct Hys as [|y ys Hy Hys]; [by rewrite bind_cons in Heq|].
    rewrite !bind_cons in Heq.
    apply app_inj_1 in Heq as [Hhead Htail]; [|done].
    f_equal; [|by apply IH].
    by rewrite <-(bits_value_byte_bits x), <-(bits_value_byte_bits y), Hhead.
Qed.

Lemma pack_bytes_in_range bits bytes_data n :
  FileOperations.pack bits = Some (bytes_data, n) →
  Forall (λ v, 0 ≤ v < 256)%Z bytes_data.
Proof.
  unfold FileOperations.pack.
  match goal with |- mapM ?f ?l ≫= _ = _ → _ =>
    destruct (mapM f l) as [bs|] eqn:Hbs; [|done] end.
  cbn [mbind option_bind]. intros [= <- _].
  apply mapM_Some_1 in Hbs. apply Forall_lookup. intros i y Hy.
  destruct (Forall2_lookup_r _ _ _ _ _ Hbs Hy) as (x & _ & Hf).
  cbn beta in Hf.
  match type of Hf with ?m ≫= _ = _ => destruct m as [v|]; [|done] end.
  cbn [mbind option_bind] in Hf. unfold FileOperations.bytearray_item in Hf.
  case_decide; [|done]. by injection Hf as <-.
Qed.

Lemma padding_of_mul8 n : padding_of (8 * n) = 0.
Proof. unfold padding_of. lia. Qed.

(** X10.  Saving the bits loaded from a file of bytes writes the same
    bytes back and returns eight times their number. *)
Theorem X10_load_then_save data filename out (fs : gmap string (list Z)) :
  Forall (λ v, 0 ≤ v < 256)%Z data →
  fs !! filename = Some data →
  FileOperations.save_bits_to_file
    (FileOperations.load_bits_from_file filename None fs) out fs
  = Some (<[out := data]> fs, 8 * length data).
Proof.
  intros Hdata Hfile. unfold FileOperations.load_bits_from_file.
  rewrite Hfile. destruct (unpack_spec data) as [Hlen Hbits].
  destruct (pack_spec _ Hbits) as (bytes & Hpack & Hbytes & Hback).
  rewrite Hlen, padding_of_mul8 in Hpack, Hbytes, Hback.
  rewrite app_nil_r in Hback. rewrite Nat.add_0_r in Hpack.
  assert (bytes = data) as ->.
  { apply bind_byte_bits_inj; [by eapply pack_bytes_in_range|done|done]. }
  unfold FileOperations.save_bits_to_file. by rewrite Hpack.
Qed.

Lemma X10_witness :
  Forall (λ v, 0 ≤ v < 256)%Z [160; 7]%Z ∧
  ({["mibis.bin" := [160; 7]%Z]} : gmap string (list Z)) !! "mibis.bin"
  = Some [160; 7]%Z ∧
  FileOperations.save_bits_to_file
    (FileOperations.load_bits_from_file "mibis.bin" None
       {["mibis.bin" := [160; 7]%Z]})
    "copy.bin" {["mibis.bin" := [160; 7]%Z]}
  = Some (<["copy.bin" := [160; 7]%Z]> {["mibis.bin" := [160; 7]%Z]},
          8 * length [160; 7]%Z).
Proof.
  assert (Forall (λ v, 0 ≤ v < 256)%Z [160; 7]%Z) as Hdata
    by (repeat constructor; lia).
  assert (({["mibis.bin" := [160; 7]%Z]} : gmap string (list Z)) !! "mibis.bin"
          = Some [160; 7]%Z) as Hfile by apply lookup_singleton_eq.
  split; [exact Hdata|]. split; [exact Hfile|].
  exact (X10_load_then_save [160; 7]%Z "mibis.bin" "copy.bin" _ Hdata Hfile).
Defined.

(** X11.  For every list of bits, of any length, saving it and loading
    the file with [max_bits] set to the number of bits saved gives the
    same bits back: the padding is what the limit cuts off. *)
Theorem X11_round_trip_with_length bits filename (fs : gmap string (list Z)) :
  Forall is_bit bits →
  ∃ fs' n,
    FileOperations.save_bits_to_file bits filename fs = Some (fs', n) ∧
    FileOperations.load_bits_from_file filename
      (Some (Z.of_nat (length bits))) fs' = bits.
Proof.
  intros Hbits.
  destruct (pack_spec bits Hbits) as (bytes & Hpack & Hlen & Hback).
  unfold FileOperations.save_bits_to_file.
  rewrite Hpack. cbn [mbind option_bind]. eexists _, _. split; [done|].
  unfold FileOperations.load_bits_from_file. rewrite lookup_insert_eq.
  unfold FileOperations.unpack. rewrite Hback.
  rewrite length_app, length_replicate.
  case_decide as Hlt.
  - unfold py_slice_to. rewrite decide_True by lia.
    rewrite Nat2Z.id, take_app_le by lia. by apply take_ge.
  - replace (padding_of (length bits)) with 0 by lia. apply app_nil_r.
Qed.

Lemma X11_witness :
  Forall is_bit [1; 0; 1]%Z ∧
  ∃ fs' n,
    FileOperations.save_bits_to_file [1; 0; 1]%Z "bits.bin" ∅ = Some (fs', n) ∧
    FileOperations.load_bits_from_file "bits.bin"
      (Some (Z.of_nat (length [1; 0; 1]%Z))) fs' = [1; 0; 1]%Z.
Proof.
  assert (Forall is_bit [1; 0; 1]%Z) as Hbits.
  { repeat constructor; (by left) || (by right). }
  split; [exact Hbits|].
  exact (X11_round_trip_with_length [1; 0; 1]%Z "bits.bin" ∅ Hbits).
Defined.

(** ** Whitening for no bits *)

Lemma whiten_without_target sha3_256 data :
  (∀ target_bits, (-255 ≤ target_bits ≤ 0)%Z →
     whiten sha3_256 data target_bits = None) ∧
  (∀ target_bits, (target_bits ≤ -256)%Z →
     whiten sha3_256 data target_bits = Some []).
Proof.
  split; intros target_bits Ht; unfold whiten.
  - set (num := ((target_bits + 255) `div` 256)%Z).
    assert (num = 0%Z) as -> by (unfold num; lia).
    by rewrite decide_True by lia.
  - set (num := ((target_bits + 255) `div` 256)%Z).
    assert (num ≤ -1)%Z as Hnum by (unfold num; lia).
    clearbody num.
    rewrite decide_False by lia. cbn [mbind option_bind].
    set (chunk_size :=
           ((Z.of_nat (length data) `div` (num `min` 1000)) `max` 64)%Z).
    assert (0 < chunk_size)%Z as Hchunk by (unfold chunk_size; lia).
    clearbody chunk_size.
    set (available := (Z.of_nat (length data) `div` chunk_size)%Z).
    assert (0 ≤ available)%Z as Havail.
    { unfold available. apply Z.div_pos; lia. }
    clearbody available.
    replace (num `min` available)%Z with num by lia.
    replace (Z.to_nat num) with 0 by lia.
    cbn [seq mapM mbind option_bind mret option_ret].
    rewrite decide_False by lia. cbn [mbind option_bind mjoin list_join app].
    unfold py_slice_to. by rewrite decide_False, take_nil by lia.
Qed.

(** X13.  Whitening for no bits: with [-255 <= target_bits <= 0] the
    number of hashes is [0] and the chunk size is a division by zero,
    which raises; with [target_bits <= -256] nothing is hashed and the
    empty list is returned. *)
Theorem X13_whiten_without_target sha3_256 data :
  (∀ target_bits, (-255 ≤ target_bits ≤ 0)%Z →
     whiten sha3_256 data target_bits = None) ∧
  (∀ target_bits, (target_bits ≤ -256)%Z →
     whiten sha3_256 data target_bits = Some []).
Proof. apply whiten_without_target. Qed.


(** ** Bit extraction *)

Import BitExtractor.

Lemma land_1_bit s : Z.land s 1 = Z.b2z (Z.testbit s 0).
Proof.
  change 1%Z with (Z.ones 1). rewrite Z.land_ones by lia.
  change (2 ^ 1)%Z with 2%Z. symmetry. apply Z.bit0_mod.
Qed.

Lemma land_pow2 s k :
  (0 ≤ k)%Z →
  Z.land s (Z.shiftl 1 k) = if Z.testbit s k then (2 ^ k)%Z else 0%Z.
Proof.
  intros Hk. rewrite Z.shiftl_1_l. apply Z.bits_inj'. intros m Hm.
  rewrite Z.land_spec, Z.pow2_bits_eqb by done.
  destruct (Z.eqb_spec k m) as [->|Hne].
  - destruct (Z.testbit s m) eqn:Hs; cbn.
    + by rewrite Z.pow2_bits_true.
    + by rewrite Z.bits_0.
  - rewrite andb_false_r. destruct (Z.testbit s k).
    + by rewrite Z.pow2_bits_false.
    + by rewrite Z.bits_0.
Qed.

(** The bit plane number [i]: bit [bit_pos i] of every sample. *)
Lemma bit_values_testbit samples i :
  bit_values samples i
  = (λ s, Z.b2z (Z.testbit s (Z.of_nat (bit_pos i)))) <$> samples.
Proof.
  unfold bit_values. apply list_fmap_ext. intros _ s _.
  rewrite land_pow2 by lia.
  destruct (Z.testbit s (Z.of_nat (bit_pos i))); cbn.
  - rewrite decide_True; [done|]. apply Z.pow_pos_nonneg; lia.
  - by rewrite decide_False by lia.
Qed.

Lemma py_range_strided start step n :
  start < step →
  py_range start (n * step) step = (λ j, start + j * step) <$> seq 0 n.
Proof.
  intros Hs. unfold py_range. f_equal. f_equal.
  destruct n as [|n].
  - cbn [Nat.mul]. replace (0 - start + step - 1) with (step - 1) by lia.
    apply Nat.div_small. lia.
  - replace (S n * step - start + step - 1)
      with ((step - 1 - start) + S n * step) by nia.
    rewrite Nat.div_add by lia. rewrite Nat.div_small by lia. done.
Qed.

(** A run of assignments [r[p] = v] to distinct cells in range. *)
Lemma foldl_insert_pairs (pvs : list (nat * Z)) :
  ∀ r, NoDup pvs.*1 → Forall (λ pv, pv.1 < length r) pvs →
  length (foldl (λ r pv, <[pv.1 := pv.2]> r) r pvs) = length r ∧
  (∀ p v, (p, v) ∈ pvs →
     foldl (λ r pv, <[pv.1 := pv.2]> r) r pvs !! p = Some v) ∧
  (∀ q, q ∉ pvs.*1 →
     foldl (λ r pv, <[pv.1 := pv.2]> r) r pvs !! q = r !! q).
Proof.
  induction pvs as [|[p v] pvs IH]; intros r Hnd Hrange.
  - split_and!; [done| |done]. intros p v Hin. by apply elem_of_nil in Hin.
  - cbn [fmap list_fmap fst] in Hnd. apply NoDup_cons in Hnd as [Hp Hnd].
    apply Forall_cons in Hrange as [Hpr Hrange]. cbn [fst] in Hpr.
    destruct (IH (<[p:=v]> r)) as (Hlen & Hset & Hframe); [done| |].
    { eapply Forall_impl; [done|]. intros pv. by rewrite length_insert. }
    cbn [foldl fst snd]. split_and!.
    + by rewrite Hlen, length_insert.
    + intros p' v' [[= -> ->]|Hin]%elem_of_cons.
      * rewrite Hframe by done. by apply list_lookup_insert_eq.
      * by apply Hset.
    + intros q Hq. cbn [fmap list_fmap fst] in Hq.
      apply not_elem_of_cons in Hq as [Hne Hq].
      rewrite Hframe by done. by apply list_lookup_insert_ne.
Qed.

(** [result[start::step] = values] on a result of [n * step] cells and
    [n] values: cell [start + j * step] receives the value number [j], the
    other cells keep theirs. *)
Lemma set_strided_spec result start step values n :
  start < step → length result = n * step → length values = n →
  ∃ r', set_strided result start step values = Some r' ∧
        length r' = n * step ∧
        (∀ j v, values !! j = Some v → r' !! (start + j * step) = Some v) ∧
        (∀ q, (∀ j, j < n → q ≠ start + j * step) → r' !! q = result !! q).
Proof.
  intros Hs Hres Hvals. unfold set_strided.
  rewrite Hres, py_range_strided by done.
  rewrite decide_True by (by rewrite length_fmap, length_seq).
  set (slots := (λ j, start + j * step) <$> seq 0 n).
  assert (length slots = n) as Hslots
    by (unfold slots; by rewrite length_fmap, length_seq).
  assert (∀ j, j < n → slots !! j = Some (start + j * step)) as Hslot.
  { intros j Hj. unfold slots. rewrite list_lookup_fmap, lookup_seq_lt by done.
    done. }
  destruct (foldl_insert_pairs (zip slots values) result)
    as (Hlen & Hset & Hframe).
  { rewrite fst_zip by lia. unfold slots.
    assert (Inj (=) (=) (λ j, start + j * step)) as Hinj
      by (intros j1 j2 Heq; nia).
    apply (NoDup_fmap_2 _), NoDup_seq. }
  { apply Forall_forall. intros [p v] Hin.
    apply elem_of_zip_l in Hin. unfold slots in Hin.
    apply list_elem_of_fmap in Hin as (j & -> & Hj%elem_of_seq).
    cbn [fst]. rewrite Hres. nia. }
  eexists. split; [done|]. split; [by rewrite Hlen|]. split.
  - intros j v Hv. apply Hset.
    apply lookup_lt_Some in Hv as Hj.
    apply list_elem_of_lookup. exists j.
    apply lookup_zip_with_Some. exists (start + j * step), v.
    split_and!; [done|apply Hslot; lia|done].
  - intros q Hq. apply Hframe. rewrite fst_zip by lia.
    unfold slots. intros (j & -> & Hj%elem_of_seq)%list_elem_of_fmap.
    apply (Hq j); [lia|done].
Qed.

Lemma residue_unique k i j i' j' :
  i < k → i' < k → i + j * k = i' + j' * k → i = i'.
Proof.
  intros Hi Hi' Heq.
  assert ((i + j * k) `mod` k = i) as Hm
    by (rewrite Nat.Div0.mod_add; by apply Nat.mod_small).
  assert ((i' + j' * k) `mod` k = i') as Hm'
    by (rewrite Nat.Div0.mod_add; by apply Nat.mod_small).
  congruence.
Qed.

(** The loop of [extract_optimized_bits] over distinct indices below
    [k]: the plane number [i] ends up in the cells [i + j * k]. *)
Lemma optimized_loop_spec samples k indices :
  ∀ result,
    NoDup indices → Forall (λ i, i < k) indices →
    length result = length samples * k →
    ∃ out, optimized_loop samples k indices result = Some out ∧
           length out = length samples * k ∧
           (∀ i j v, i ∈ indices → bit_values samples i !! j = Some v →
                     out !! (i + j * k) = Some v) ∧
           (∀ q, (∀ i j, i ∈ indices → j < length samples → q ≠ i + j * k) →
                 out !! q = result !! q).
Proof.
  induction indices as [|i indices IH]; intros result Hnd Hlt Hlen.
  - exists result. split_and!; [done|done| |done].
    intros i j v Hin. by apply elem_of_nil in Hin.
  - apply NoDup_cons in Hnd as [Hi Hnd].
    apply Forall_cons in Hlt as [Hik Hlt].
    destruct (set_strided_spec result i k (bit_values samples i)
                (length samples)) as (r1 & Hr1 & Hlen1 & Hset1 & Hframe1);
      [done|done|unfold bit_values; by rewrite length_fmap|].
    destruct (IH r1 Hnd Hlt Hlen1) as (out & Hout & Hlen' & Hset & Hframe).
    exists out. cbn [optimized_loop]. rewrite Hr1. cbn [mbind option_bind].
    split; [done|]. split; [done|]. split.
    + intros i' j v [->|Hin]%elem_of_cons Hv.
      * rewrite Hframe; [by apply Hset1|].
        intros i'' j'' Hin'' _ Heq.
        assert (i = i'') as ->; [|done].
        eapply residue_unique; [done| |done].
        rewrite Forall_forall in Hlt. by apply Hlt.
      * by apply Hset.
    + intros q Hq. rewrite Hframe.
      * apply Hframe1. intros j Hj. apply Hq; [by left|done].
      * intros i' j Hin Hj. apply Hq; [by right|done].
Qed.

Lemma optimized_spec samples bits_per_sample :
  ∃ out,
    extract_optimized_bits samples bits_per_sample = Some out ∧
    length out
    = length samples * Z.to_nat (1 `max` (4 `min` bits_per_sample))%Z ∧
    ∀ j s i,
      samples !! j = Some s →
      i < Z.to_nat (1 `max` (4 `min` bits_per_sample))%Z →
      out !! (j * Z.to_nat (1 `max` (4 `min` bits_per_sample))%Z + i)
      = Some (Z.b2z (Z.testbit s (Z.of_nat (bit_pos i)))).
Proof.
  unfold extract_optimized_bits.
  set (k := Z.to_nat (1 `max` (4 `min` bits_per_sample))%Z).
  assert (1 ≤ k ≤ 4) as Hk by (unfold k; lia). clearbody k.
  case_decide as Hk1.
  - subst k. eexists. split; [done|].
    split; [rewrite length_fmap; lia|].
    intros j s i Hs Hi. replace i with 0 by lia.
    rewrite Nat.mul_1_r, Nat.add_0_r, list_lookup_fmap, Hs. cbn.
    by rewrite land_1_bit.
  - destruct (optimized_loop_spec samples k (seq 0 k)
                (replicate (length samples * k) 0%Z))
      as (out & Hout & Hlen & Hset & _).
    { apply NoDup_seq. }
    { apply Forall_forall. intros i Hi%elem_of_seq. lia. }
    { by rewrite length_replicate. }
    exists out. split; [done|]. split; [done|].
    intros j s i Hs Hi. rewrite Nat.add_comm. apply Hset.
    + apply elem_of_seq. lia.
    + by rewrite bit_values_testbit, list_lookup_fmap, Hs.
Qed.

Lemma is_bit_b2z b : is_bit (Z.b2z b).
Proof. destruct b; [by right|by left]. Qed.

Lemma optimized_bits_are_bits samples bits_per_sample out :
  extract_optimized_bits samples bits_per_sample = Some out →
  Forall is_bit out.
Proof.
  intros Hrun.
  destruct (optimized_spec samples bits_per_sample) as (out' & Hout & Hlen & Hget).
  assert (out' = out) as -> by congruence.
  set (k := Z.to_nat (1 `max` (4 `min` bits_per_sample))%Z) in *.
  assert (1 ≤ k ≤ 4) as Hk by (unfold k; lia). clearbody k.
  apply Forall_lookup. intros q y Hy.
  apply lookup_lt_Some in Hy as Hq. rewrite Hlen in Hq.
  assert (q / k < length samples) as Hj
    by (apply Nat.Div0.div_lt_upper_bound; lia).
  destruct (lookup_lt_is_Some_2 samples (q / k) Hj) as [s Hs].
  assert (q `mod` k < k) as Hi by (apply Nat.mod_upper_bound; lia).
  pose proof (Hget _ _ _ Hs Hi) as Hv.
  replace (q `div` k * k + q `mod` k) with q in Hv
    by (pose proof (Nat.div_mod_eq q k); lia).
  rewrite Hv in Hy. injection Hy as <-. apply is_bit_b2z.
Qed.

(** X14.  [extract_optimized_bits] never raises.  With
    [bits_per_sample] brought into [1 .. 4] it returns [k] bits per
    sample, interleaved sample by sample: the output bit number
    [j * k + i] is bit [0], [1], [4] or [5] (for [i = 0, 1, 2, 3]) of the
    sample number [j] in two's complement. *)
Theorem X14_optimized_bits_interleaved samples bits_per_sample :
  ∃ out,
    extract_optimized_bits samples bits_per_sample = Some out ∧
    length out
    = length samples * Z.to_nat (1 `max` (4 `min` bits_per_sample))%Z ∧
    Forall is_bit out ∧
    ∀ j s i,
      samples !! j = Some s →
      i < Z.to_nat (1 `max` (4 `min` bits_per_sample))%Z →
      out !! (j * Z.to_nat (1 `max` (4 `min` bits_per_sample))%Z + i)
      = Some (Z.b2z (Z.testbit s (Z.of_nat (bit_pos i)))).
Proof.
  destruct (optimized_spec samples bits_per_sample) as (out & Hout & Hlen & Hget).
  exists out. split; [done|]. split; [done|]. split; [|done].
  by eapply optimized_bits_are_bits.
Qed.

(** X15.  [extract_bits] by method.  ["lsb"] gives one bit per sample,
    the parity of the sample (also for negative samples); ["threshold"]
    gives one bit per sample, [1] exactly for the positive samples;
    ["optimized"] gives [k] bits per sample with [k] the number of bits
    per sample brought into [1 .. 4]; none of the three raises and all
    return bits.  Any other method name raises. *)
Theorem X15_extract_bits_methods bits_per_sample samples :
  (∃ bits, extract_bits "lsb" bits_per_sample samples = Some bits ∧
           length bits = length samples ∧ Forall is_bit bits ∧
           ∀ j s, samples !! j = Some s → bits !! j = Some (s `mod` 2)%Z) ∧
  (∃ bits, extract_bits "threshold" bits_per_sample samples = Some bits ∧
           length bits = length samples ∧ Forall is_bit bits ∧
           ∀ j s, samples !! j = Some s →
                  (bits !! j = Some 1%Z ↔ (0 < s)%Z)) ∧
  (∃ bits, extract_bits "optimized" bits_per_sample samples = Some bits ∧
           length bits
           = length samples * Z.to_nat (1 `max` (4 `min` bits_per_sample))%Z ∧
           Forall is_bit bits) ∧
  (∀ method, method ≠ "lsb" → method ≠ "threshold" → method ≠ "optimized" →
             extract_bits method bits_per_sample samples = None).
Proof.
  split_and!.
  - eexists. split; [reflexivity|]. unfold _extract_lsb.
    split; [by rewrite length_fmap|]. split.
    + apply Forall_fmap, Forall_forall. intros s _. apply is_bit_land_1.
    + intros j s Hs. rewrite list_lookup_fmap, Hs. cbn.
      by rewrite land_1_bit, Z.bit0_mod.
  - eexists. split; [reflexivity|]. unfold _extract_threshold.
    split; [by rewrite length_fmap|]. split.
    + apply Forall_fmap, Forall_forall. intros s _. cbn.
      case_decide; [by right|by left].
    + intros j s Hs. rewrite list_lookup_fmap, Hs. cbn.
      case_decide; split; (done || lia || by intros [=]).
  - destruct (optimized_spec samples bits_per_sample)
      as (bits & Hbits & Hlen & Hget).
    exists bits. unfold extract_bits. cbn. split; [done|]. split; [done|].
    by eapply optimized_bits_are_bits.
  - intros method H1 H2 H3. unfold extract_bits.
    by rewrite !decide_False.
Qed.

(** ** The output files *)

Import TrngGeneratorRun.

Lemma string_app_inj_l (s a b : string) : s +:+ a = s +:+ b → a = b.
Proof. induction s as [|c s IH]; simpl; [done|]. intros [= ?]. auto. Qed.







Lemma file_names_distinct (arg : string) :
  raw_audio_file arg ≠ mibis_xor_file arg ∧
  raw_audio_file arg ≠ sha3_file arg ∧
  mibis_xor_file arg ≠ sha3_file arg.
Proof.
  unfold raw_audio_file, mibis_xor_file, sha3_file.
  split_and!; by intros ?%string_app_inj_l.
Qed.

(** ** The whole of [generate] *)





(** The file system after the old files were removed and the raw and
    the mixed bits were saved. *)
Lemma saved_files arg b1 b2 (fs : gmap string (list Z)) :
  let fs' :=
    <[mibis_xor_file arg := b2]>
      (<[raw_audio_file arg := b1]>
         (delete (sha3_file arg)
            (delete (mibis_xor_file arg) (delete (raw_audio_file arg) fs)))) in
  fs' !! raw_audio_file arg = Some b1 ∧
  fs' !! mibis_xor_file arg = Some b2 ∧
  fs' !! sha3_file arg = None ∧
  (∀ name, name ≠ raw_audio_file arg → name ≠ mibis_xor_file arg →
           name ≠ sha3_file arg → fs' !! name = fs !! name).
Proof.
  destruct (file_names_distinct arg) as (Hrm & Hrs & Hms).
  cbv zeta. split_and!.
  - by rewrite lookup_insert_ne, lookup_insert_eq.
  - by rewrite lookup_insert_eq.
  - by rewrite !lookup_insert_ne, lookup_delete_eq.
  - intros name H1 H2 H3.
    by rewrite !lookup_insert_ne, !lookup_delete_ne.
Qed.

(** Without a positive [target_bits] the loop is not entered. *)
Lemma generate_loop_skipped source target_bits batch_size dual fuel :
  (target_bits ≤ 0)%Z →
  generate_loop source target_bits batch_size dual fuel 0 generate_init
  = Finished generate_init.
Proof.
  intros Ht.
  destruct fuel; cbn [generate_loop generate_init total_bits_generated];
    by rewrite decide_False by lia.
Qed.



(** X18.  With [-255 <= target_bits <= 0] the loop of [generate] is not
    entered, the files of raw and of mixed bits are written empty, and the
    whitening stage then divides by zero: [generate] raises, for any bound
    on the iterations.  It leaves behind the two empty files and no file
    of whitened bits; every other file is as it was. *)
Theorem X18_generate_without_target
    sha3_256 source target_bits batch_size dual arg fuel
    (fs : gmap string (list Z)) :
  (-255 ≤ target_bits ≤ 0)%Z →
  ∃ fs',
    generate sha3_256 source target_bits batch_size dual arg fuel fs
    = (fs', Raised) ∧
    fs' !! raw_audio_file arg = Some [] ∧
    fs' !! mibis_xor_file arg = Some [] ∧
    fs' !! sha3_file arg = None ∧
    (∀ name, name ≠ raw_audio_file arg → name ≠ mibis_xor_file arg →
             name ≠ sha3_file arg → fs' !! name = fs !! name).
Proof.
  intros Ht. unfold generate.
  rewrite generate_loop_skipped by lia.
  unfold generate_save, generate_init.
  cbn [all_raw_bits all_processed_bits].
  unfold FileOperations.save_bits_to_file.
  change (FileOperations.pack []) with (Some ([] : list Z, 0)).
  cbn [mbind option_bind]. unfold _generate_and_save_sha3.
  rewrite lookup_insert_eq. cbn [mbind option_bind].
  destruct (whiten_without_target sha3_256 []) as [Hnone _].
  rewrite Hnone by done.
  cbn [mbind option_bind].
  eexists. split; [done|]. apply saved_files.
Qed.

Lemma X18_witness :
  (-255 ≤ 0 ≤ 0)%Z ∧
  ∃ fs',
    generate (λ _, replicate 32 0%Z) (λ _ _, [1; 0; 1; 1]%Z) 0 2 false
      "random_bits" 5 {["random_bits_sha3.bin" := [7%Z]]}
    = (fs', Raised) ∧
    fs' !! raw_audio_file "random_bits" = Some [] ∧
    fs' !! mibis_xor_file "random_bits" = Some [] ∧
    fs' !! sha3_file "random_bits" = None.
Proof.
  assert (-255 ≤ 0 ≤ 0)%Z as Ht by lia. split; [exact Ht|].
  destruct (X18_generate_without_target (λ _, replicate 32 0%Z)
              (λ _ _, [1; 0; 1; 1]%Z) 0 2 false "random_bits" 5
              {["random_bits_sha3.bin" := [7%Z]]} Ht)
    as (fs' & Hrun & H1 & H2 & H3 & _).
  by exists fs'.
Defined.



(** ** A batch never fills its quota *)

Lemma single_mixer_upper bits :
  ∃ out, _process_with_single_mixer bits = Some out ∧
         (length bits ≤ 2 → length out = 1) ∧
         (3 ≤ length bits → 2 * length out + 1 ≤ length bits).
Proof.
  destruct (single_mixer_total bits) as (out & Hout & Hlen).
  exists out. split; [done|]. split.
  - intros Hn. rewrite Hlen.
    destruct bits as [|b0 [|b1 [|b2 bits]]]; [done|done|done|].
    simpl in Hn; lia.
  - intros Hn. destruct (single_mixer_ratio bits Hn) as (out' & Hout' & _ & Hhi).
    by assert (out' = out) as -> by congruence.
Qed.

(** X19.  Called as the batch loop calls it, with [max_bits] twice the
    [bits_needed >= 3] of the batch, [process_bits] returns fewer than
    [bits_needed] bits in either mode, however many raw bits it is given:
    the cut to [bits_needed] bits that follows removes nothing, and no
    batch fills its quota. *)
Theorem X19_batch_below_quota dual raw bits_needed :
  (3 ≤ bits_needed)%Z →
  ∃ mixed,
    process_bits dual raw (Some (bits_needed * 2)%Z) = Some mixed ∧
    (Z.of_nat (length mixed) < bits_needed)%Z ∧
    py_slice_to bits_needed mixed = mixed.
Proof.
  intros Hbn.
  pose proof (cap_input_length raw (bits_needed * 2)%Z ltac:(lia)) as Hfed.
  unfold process_bits. set (fed := cap_input raw _) in *. clearbody fed.
  assert (∃ mixed,
            (if dual then _process_with_dual_mixers fed
             else _process_with_single_mixer fed) = Some mixed ∧
            (Z.of_nat (length mixed) < bits_needed)%Z) as (mixed & -> & Hlt).
  { destruct dual.
    - destruct (dual_mixer_split fed) as (out1 & out2 & H1 & H2 & ->).
      exists (out1 ++ out2). split; [done|].
      destruct (single_mixer_upper (take (length fed / 2) fed))
        as (o1 & Ho1 & Hs1 & Hb1).
      destruct (single_mixer_upper (drop (length fed / 2) fed))
        as (o2 & Ho2 & Hs2 & Hb2).
      assert (o1 = out1) as -> by congruence.
      assert (o2 = out2) as -> by congruence.
      rewrite length_take in Hs1, Hb1. rewrite length_drop in Hs2, Hb2.
      rewrite length_app.
      set (n := length fed) in *. clearbody n.
      set (l1 := length out1) in *. set (l2 := length out2) in *.
      clearbody l1 l2. clear -Hbn Hfed Hs1 Hb1 Hs2 Hb2.
      destruct (decide ((n `div` 2) `min` n ≤ 2));
        destruct (decide (n - n `div` 2 ≤ 2)); lia.
    - destruct (single_mixer_upper fed) as (out & Hout & Hs & Hb).
      exists out. split; [done|].
      destruct (decide (length fed ≤ 2)); lia. }
  exists mixed. split; [done|]. split; [done|].
  unfold py_slice_to. rewrite decide_True by lia. apply take_ge. lia.
Qed.

Lemma X19_witness :
  (3 ≤ 4)%Z ∧
  ∃ mixed,
    process_bits true [1; 0; 1; 1; 0; 1; 0; 0; 1; 1]%Z (Some (4 * 2)%Z)
    = Some mixed ∧
    (Z.of_nat (length mixed) < 4)%Z ∧
    py_slice_to 4 mixed = mixed.
Proof.
  assert (3 ≤ 4)%Z as H by lia. split; [exact H|].
  exact (X19_batch_below_quota true [1; 0; 1; 1; 0; 1; 0; 0; 1; 1]%Z 4 H).
Defined.
